(** * parrot: an order-2 Markov chain over song lyrics

    Shallow embedding of [parrot.py]: the lyric encoding of
    [get_lyrics_corpus], [build_distribution] and [generate_song].

    Python values are modelled as follows.
    - [str] is [string]; the line-break character is [nl].
    - a [dict] keyed by pairs of [str] is an association list kept in
      insertion order (the order [list(distribution.keys())] returns);
      [add_successor] never duplicates a key.
    - a variable that holds [None] or a [str] is an [option string].
    - [random] is an explicit stream of draws threaded through the walk;
      exceptions are the [Err] results of a small state-and-error monad. *)

From Stdlib Require Import String Ascii List ZArith Lia Bool PeanoNat.
Import ListNotations.
Local Open Scope string_scope.
Local Open Scope list_scope.

(** ** Python string primitives *)

Module PyStr.

Definition nl : ascii := "010"%char.
Definition sp : ascii := " "%char.

(** ["\n"], ["\n "] and ["\n\n"]. *)
Definition NL : string := String nl EmptyString.
Definition NL_SP : string := String nl (String sp EmptyString).
Definition NL_NL : string := String nl (String nl EmptyString).

(** [s.split(sep)] for a one-character [sep] (both call sites):
    [n] occurrences of [sep] give [n + 1] pieces, some possibly empty. *)
Fixpoint split (sep : ascii) (s : string) : list string :=
  match s with
  | EmptyString => [EmptyString]
  | String c s' =>
      if Ascii.eqb c sep then EmptyString :: split sep s'
      else match split sep s' with
           | [] => [String c EmptyString]
           | w :: ws => String c w :: ws
           end
  end.

(** [sep.join(l)] over a list of [str]. *)
Fixpoint join (sep : string) (l : list string) : string :=
  match l with
  | [] => EmptyString
  | x :: rest =>
      match rest with
      | [] => x
      | _ :: _ => x ++ sep ++ join sep rest
      end
  end.

(** [s.replace(old, new)] for a non-empty [old]: a left-to-right scan
    that replaces non-overlapping occurrences.  [skip] counts the
    characters of a matched [old] that are still to be consumed. *)
Fixpoint replace_from (old new : string) (skip : nat) (s : string) : string :=
  match s with
  | EmptyString => EmptyString
  | String c s' =>
      match skip with
      | S k => replace_from old new k s'
      | O =>
          if prefix old s
          then new ++ replace_from old new (String.length old - 1) s'
          else String c (replace_from old new 0 s')
      end
  end.

Definition replace (old new s : string) : string := replace_from old new 0 s.

(** Does character [c] occur in [s]? *)
Fixpoint mem_char (c : ascii) (s : string) : bool :=
  match s with
  | EmptyString => false
  | String c' s' => Ascii.eqb c' c || mem_char c s'
  end.

(** Does [s] contain two adjacent line breaks (an occurrence of ["\n\n"])? *)
Fixpoint doubled_break (s : string) : bool :=
  match s with
  | EmptyString => false
  | String c s' =>
      match s' with
      | EmptyString => false
      | String c' _ => (Ascii.eqb c nl && Ascii.eqb c' nl) || doubled_break s'
      end
  end.

(** A line that holds no character other than a space: the empty line
    and the lines made of spaces. *)
Fixpoint all_spaces (s : string) : bool :=
  match s with
  | EmptyString => true
  | String c s' => Ascii.eqb c sp && all_spaces s'
  end.

End PyStr.

(** ** Lyric encoding and decoding *)

Module Lyrics.
Import PyStr.

Definition licence_sentinel : string := "(1409616144139)".

(** [l[-1]] of a list that [split] produced (never empty). *)
Definition last_line (lines : list string) : string := last lines EmptyString.

(** [l[:-4]]. *)
Definition drop_last4 (lines : list string) : list string :=
  firstn (List.length lines - 4) lines.

(** [get_lyrics_corpus], lines 72-78: what is appended to the corpus for
    one retrieved lyric text. *)
Definition physical_lines (lyrics : string) : list string :=
  split nl (replace NL_NL NL lyrics).

Definition encode_lyrics (lyrics : string) : string :=
  let lyrics := physical_lines lyrics in
  let lyrics :=
    if String.eqb (last_line lyrics) licence_sentinel
    then drop_last4 lyrics
    else lyrics in
  join NL_SP lyrics.

(** [song.split(' ')], the token sequence of one corpus entry
    ([build_distribution], line 87). *)
Definition tokens (song : string) : list string := split sp song.

Definition Tokenize (text : string) : list string := tokens (encode_lyrics text).

(** [' '.join(song).replace('\n ', '\n')] over [str] tokens
    ([generate_song], line 133). *)
Definition Decode (song : list string) : string :=
  replace NL_SP NL (join " " song).

(** The lines [encode_lyrics] keeps: all physical lines, or all but the
    last four when the last one is the licence sentinel. *)
Definition kept_lines (text : string) : list string :=
  if String.eqb (last_line (physical_lines text)) licence_sentinel
  then drop_last4 (physical_lines text)
  else physical_lines text.

(** *** Sample texts *)

(** A text of two lines: ["la la\nla"]. *)
Definition two_line_text : string :=
  String "l" (String "a" (String sp (String "l" (String "a" (String nl
    (String "l" (String "a" EmptyString))))))).

End Lyrics.

(** ** The distribution: pair of tokens to observed successors *)

Module Dist.
Import PyStr Lyrics.

Definition PairKey : Type := (string * string)%type.
Definition Distribution : Type := list (PairKey * list string).

Definition key_eq_dec (k k' : PairKey) : {k = k'} + {k <> k'}.
Proof. decide equality; apply string_dec. Defined.

(** [distribution.get(key)]: [None] when [key in distribution] is false,
    else [Some distribution[key]]. *)
Fixpoint lookup (key : PairKey) (d : Distribution) : option (list string) :=
  match d with
  | [] => None
  | (k, ws) :: rest => if key_eq_dec k key then Some ws else lookup key rest
  end.

(** [list(distribution.keys())]. *)
Definition keys (d : Distribution) : list PairKey := map fst d.

(** Lines 98-101: append [word] to the entry of [key], creating the entry
    at the end of the dict when [key] is new. *)
Fixpoint add_successor (key : PairKey) (word : string) (d : Distribution)
  : Distribution :=
  match d with
  | [] => [(key, [word])]
  | (k, ws) :: rest =>
      if key_eq_dec k key then (k, ws ++ [word]) :: rest
      else (k, ws) :: add_successor key word rest
  end.

(** Lines 95-104: the loop over [song[2:]], with the two previous words. *)
Fixpoint scan_song (d : Distribution) (prev_word1 prev_word2 : string)
    (rest : list string) : Distribution :=
  match rest with
  | [] => d
  | word :: rest' =>
      scan_song (add_successor (prev_word1, prev_word2) word d)
                prev_word2 word rest'
  end.

(** Lines 87-104: one iteration of [for song in corpus]. *)
Definition add_song (d : Distribution) (song : string) : Distribution :=
  let song := tokens song in
  if (List.length song <? 3)%nat then d
  else match song with
       | prev_word1 :: prev_word2 :: rest => scan_song d prev_word1 prev_word2 rest
       | _ => d
       end.

Definition build_distribution (corpus : list string) : Distribution :=
  fold_left add_song corpus [].

(** The successors recorded for [key], [[]] when [key] is absent. *)
Definition successors (key : PairKey) (d : Distribution) : list string :=
  match lookup key d with
  | Some ws => ws
  | None => []
  end.

(** *** What the specification says the distribution records *)

(** The tokens that occur immediately after the pair [key] in one token
    sequence, in order of occurrence. *)
Fixpoint followers (key : PairKey) (toks : list string) : list string :=
  match toks with
  | [] => []
  | x :: rest =>
      match rest with
      | y :: z :: _ =>
          (if key_eq_dec (x, y) key then [z] else []) ++ followers key rest
      | _ => []
      end
  end.

(** The same across all songs, in corpus order. *)
Definition observed_successors (key : PairKey) (corpus : list string)
  : list string :=
  flat_map (fun song => followers key (tokens song)) corpus.

(** The number of positions of [toks] at which [a], [b], [t] occur
    consecutively. *)
Fixpoint count_triple (a b t : string) (toks : list string) : nat :=
  match toks with
  | [] => 0
  | x :: rest =>
      match rest with
      | y :: z :: _ =>
          (if key_eq_dec (x, y) (a, b)
           then if string_dec z t then 1 else 0
           else 0) + count_triple a b t rest
      | _ => 0
      end
  end.

Definition occurrences_after (a b t : string) (corpus : list string) : nat :=
  list_sum (map (fun song => count_triple a b t (tokens song)) corpus).

(** [toks] contains [a], [b] consecutively, followed by one more token. *)
Definition pair_followed_in (a b : string) (toks : list string) : Prop :=
  exists pre c post, toks = pre ++ a :: b :: c :: post.

(** [w] is a token of some song of the corpus. *)
Definition corpus_token (corpus : list string) (w : string) : Prop :=
  exists song, In song corpus /\ In w (tokens song).

(** Every successor sequence is non-empty. *)
Definition successors_nonempty (d : Distribution) : Prop :=
  Forall (fun e => snd e <> []) d.

End Dist.

(** ** The chain walk *)

Module Walk.
Import PyStr Lyrics Dist.

(** The exceptions of interest.  [IndexError] is what [random.choice]
    raises on an empty sequence and [TypeError] what [str.join] raises on
    an item that is not a [str].  [GenerationError] is the error kind the
    specification names; [parrot.py] defines no such class and no path
    below constructs it. *)
Inductive exn : Type := IndexError | TypeError | GenerationError.

Inductive result (A : Type) : Type :=
| Ok (a : A)
| Err (e : exn).
Arguments Ok {A} a.
Arguments Err {A} e.

(** The random source: the stream of raw draws still to be consumed. *)
Definition Rng : Type := nat -> nat.

Definition M (A : Type) : Type := Rng -> result (A * Rng).

Definition ret {A} (a : A) : M A := fun r => Ok (a, r).

Definition bind {A B} (m : M A) (f : A -> M B) : M B :=
  fun r => match m r with
           | Ok (a, r') => f a r'
           | Err e => Err e
           end.

Definition raise {A} (e : exn) : M A := fun _ => Err e.

Notation "x <- m ;; k" := (bind m (fun x => k))
  (at level 61, m at next level, right associativity).
Notation "' p <- m ;; k" := (bind m (fun x => let p := x in k))
  (at level 61, p pattern, m at next level, right associativity).

(** [random.choice(seq)]: [IndexError] on an empty sequence, else the item
    at an index below [len(seq)] taken from the next draw. *)
Definition choice {A} (seq : list A) : M A :=
  fun r =>
    match seq with
    | [] => Err IndexError
    | _ :: _ =>
        match nth_error seq (r 0 mod List.length seq) with
        | Some x => Ok (x, fun n => r (S n))
        | None => Err IndexError
        end
    end.

(** The local variables of [generate_song] that the loop updates. *)
Record WalkState : Type := mkWalk {
  word1 : option string;
  word2 : option string;
  song : list (option string)
}.

(** Lines 112-114. *)
Definition initial : WalkState := mkWalk None None [].

(** [key in distribution] and [distribution[key]] for [key = (word1, word2)];
    a pair with a [None] component is no key of the dict. *)
Definition lookup_pending (d : Distribution) (w1 w2 : option string)
  : option (list string) :=
  match w1, w2 with
  | Some a, Some b => lookup (a, b) d
  | _, _ => None
  end.

(** Lines 117-129: one iteration of the main loop.  The boolean is not a
    program variable: it reports that the [else] branch (the dead end of
    lines 126-129) ran. *)
Definition iteration (d : Distribution) (st : WalkState)
  : M (WalkState * bool) :=
  '(w1, w2) <-
     match word1 st with
     | None => '(a, b) <- choice (keys d) ;; ret (Some a, Some b)
     | Some _ => ret (word1 st, word2 st)
     end ;;
  let song' := song st ++ [w1] in
  match lookup_pending d w1 w2 with
  | Some ws =>
      w <- choice ws ;;
      ret (mkWalk w2 (Some w) song', false)
  | None =>
      ret (mkWalk None w2 (song' ++ [w2]), true)
  end.

(** [n] iterations of the loop; the count of dead ends taken is carried
    alongside the state. *)
Fixpoint walk_loop (d : Distribution) (n : nat) (st : WalkState) (dead : nat)
  : M (WalkState * nat) :=
  match n with
  | O => ret (st, dead)
  | S n' =>
      '(st', dead_end) <- iteration d st ;;
      walk_loop d n' st' (if dead_end : bool then S dead else dead)
  end.

(** [range(word_count - 1)] has this many items. *)
Definition iterations (word_count : Z) : nat := Z.to_nat (word_count - 1).

(** Lines 111-131: the list [song] after the final append, with the count
    of dead ends taken. *)
Definition chain_walk_counted (d : Distribution) (word_count : Z)
  : M (list (option string) * nat) :=
  '(st, dead) <- walk_loop d (iterations word_count) initial 0 ;;
  ret (song st ++ [word2 st], dead).

Definition chain_walk (d : Distribution) (word_count : Z)
  : M (list (option string)) :=
  '(s, _) <- chain_walk_counted d word_count ;;
  ret s.

(** [' '.join(song)] fails with [TypeError] when an item is [None]. *)
Fixpoint str_items (l : list (option string)) : option (list string) :=
  match l with
  | [] => Some []
  | None :: _ => None
  | Some w :: rest =>
      match str_items rest with
      | Some ws => Some (w :: ws)
      | None => None
      end
  end.

Definition finish (s : list (option string)) : M string :=
  match str_items s with
  | Some ws => ret (Decode ws)
  | None => raise TypeError
  end.

Definition generate_song (corpus : list string) (word_count : Z) : M string :=
  let distribution := build_distribution corpus in
  s <- chain_walk distribution word_count ;;
  finish s.

(** The random source whose every draw is [0]: [random.choice] then
    returns the first item. *)
Definition first_choice : Rng := fun _ => 0.

(** *** The shape of one iteration *)

(** The pending pair the iteration works with: the one held, or a fresh
    start drawn from the keys. *)
Inductive pending (d : Distribution) (st : WalkState) (r : Rng)
  : option string -> option string -> Rng -> Prop :=
| pending_start a b r1 :
    word1 st = None ->
    choice (keys d) r = Ok ((a, b), r1) ->
    pending d st r (Some a) (Some b) r1
| pending_held :
    word1 st <> None ->
    pending d st r (word1 st) (word2 st) r.

(** The two ways an iteration ends. *)
Inductive outcome (d : Distribution) (st : WalkState)
    (w1 w2 : option string) (r1 : Rng)
  : WalkState -> bool -> Rng -> Prop :=
| outcome_step ws w r' :
    lookup_pending d w1 w2 = Some ws ->
    choice ws r1 = Ok (w, r') ->
    outcome d st w1 w2 r1 (mkWalk w2 (Some w) (song st ++ [w1])) false r'
| outcome_dead_end :
    lookup_pending d w1 w2 = None ->
    outcome d st w1 w2 r1 (mkWalk None w2 ((song st ++ [w1]) ++ [w2])) true r1.

(** *** Where emitted tokens come from *)

(** [o] holds a [str] that is a token of some song of the corpus. *)
Definition token_of (corpus : list string) (o : option string) : Prop :=
  exists w, o = Some w /\ corpus_token corpus w.

(** The keys and the successors of [d] are made of corpus tokens. *)
Definition drawn_from (corpus : list string) (d : Distribution) : Prop :=
  (forall a b, In (a, b) (keys d) ->
               corpus_token corpus a /\ corpus_token corpus b)
  /\ (forall key ws w, lookup key d = Some ws -> In w ws ->
                       corpus_token corpus w).

(** What holds of the walk state between iterations: the output so far
    is made of corpus tokens, and so is a pending pair when there is one. *)
Definition walk_inv (corpus : list string) (st : WalkState) : Prop :=
  Forall (token_of corpus) (song st)
  /\ (word1 st <> None ->
      token_of corpus (word1 st) /\ token_of corpus (word2 st)).

End Walk.

(** ** The corpus as [get_lyrics_corpus] assembles it *)

Module Corpus.
Import PyStr Lyrics Dist.

(** Lines 67-80, for the lyric bodies the API returned, in track order:
    each body is encoded and appended. *)
Definition encode_corpus (bodies : list string) : list string :=
  map encode_lyrics bodies.

(** A line break occurs in [tok] at most once, as its last character. *)
Fixpoint break_only_last (tok : string) : bool :=
  match tok with
  | EmptyString => true
  | String c rest =>
      if Ascii.eqb c nl
      then match rest with
           | EmptyString => true
           | String _ _ => false
           end
      else break_only_last rest
  end.

(** Every line break of [s] is immediately followed by a space. *)
Fixpoint breaks_spaced (s : string) : bool :=
  match s with
  | EmptyString => true
  | String c rest =>
      (if Ascii.eqb c nl
       then match rest with
            | EmptyString => false
            | String c' _ => Ascii.eqb c' sp
            end
       else true) && breaks_spaced rest
  end.

(** Does [tok] end with a line break? *)
Fixpoint ends_break (tok : string) : bool :=
  match tok with
  | EmptyString => false
  | String c rest =>
      match rest with
      | EmptyString => Ascii.eqb c nl
      | String _ _ => ends_break rest
      end
  end.

(** The tokens laid out as text: a space after each token but the last,
    except after a token that ends with a line break. *)
Fixpoint layout (ws : list string) : string :=
  match ws with
  | [] => EmptyString
  | w :: rest =>
      match rest with
      | [] => w
      | _ :: _ => if ends_break w then w ++ layout rest
                  else w ++ " " ++ layout rest
      end
  end.

(** A lyric body of two lines: ["a b\nc d"]. *)
Definition two_line_body : string :=
  String "a" (String sp (String "b" (String nl
    (String "c" (String sp (String "d" EmptyString)))))).

(** The number of successors stored in the whole dict. *)
Definition total_successors (d : Distribution) : nat :=
  list_sum (map (fun e => List.length (snd e)) d).

(** The number of tokens that have two predecessors in their song. *)
Definition third_and_later (corpus : list string) : nat :=
  list_sum (map (fun song => List.length (tokens song) - 2) corpus).

End Corpus.

(** ** The command line and [main] *)

Module Cli.
Import PyStr Lyrics Dist Walk Corpus.

(** What [getopt.getopt(args, 'k:a:swh', [...])] gives: [GetoptError], or
    the list of [(opt, arg)] pairs (the remaining arguments are dropped
    by [opts, _ = ...]). *)
Inductive getopt_result : Type :=
| GetoptError
| Parsed (opts : list (string * string)).

(** The dict built inside the [try]: ['sample_size'] and ['word_count']
    are always set, the other three keys may be absent (['help'] is only
    ever set to [True]). *)
Record Options : Type := mkOptions {
  api_key : option string;
  artist : option string;
  sample_size : Z;
  word_count : Z;
  help : bool
}.

(** What the network layer gives [get_lyrics_corpus]: an [ApiError] with
    its message, the lyric bodies of the tracks, or some other exception,
    which [main] does not catch. *)
Inductive retrieval : Type :=
| ApiFailure (message : string)
| Retrieved (bodies : list string)
| RetrievalCrash.

(** How a run of [main] ends. *)
Inductive exit : Type :=
| Usage
| ApiErrorExit (message : string)
| SongPrinted (song : string)
| Crashed (e : exn)
| CrashedInRetrieval.

Section Externals.

(** [int(arg)] on a [str]: [None] stands for [ValueError]. *)
Variable int : string -> option Z.
(** [getopt.getopt] with the option tables of line 139. *)
Variable getopt : list string -> getopt_result.
(** The API calls of [get_lyrics_corpus] for a key, an artist and a
    sample size. *)
Variable retrieve : string -> string -> Z -> retrieval.

(** Lines 145-160: the body of [for opt, arg in opts]. *)
Definition set_option (result : Options) (oa : string * string) : Options :=
  let '(opt, arg) := oa in
  if (opt =? "-k") || (opt =? "--apikey") then
    mkOptions (Some arg) (artist result) (sample_size result)
              (word_count result) (help result)
  else if (opt =? "-a") || (opt =? "--artist") then
    mkOptions (api_key result) (Some arg) (sample_size result)
              (word_count result) (help result)
  else if (opt =? "-s") || (opt =? "--samplesize") then
    match int arg with
    | Some n => mkOptions (api_key result) (artist result) n
                          (word_count result) (help result)
    | None => result
    end
  else if (opt =? "-w") || (opt =? "--wordcount") then
    match int arg with
    | Some n => mkOptions (api_key result) (artist result)
                          (sample_size result) n (help result)
    | None => result
    end
  else if (opt =? "-h") || (opt =? "--help") then
    mkOptions (api_key result) (artist result) (sample_size result)
              (word_count result) true
  else result.

(** Line 142. *)
Definition defaults : Options := mkOptions None None 25 50 false.

(** Line 164: [min(max(n, 5), 100)]. *)
Definition clamp (n : Z) : Z := Z.min (Z.max n 5) 100.

(** [parse_cmdline_options]: [None] is the empty dict returned on
    [GetoptError]. *)
Definition parse_cmdline_options (args : list string) : option Options :=
  match getopt args with
  | GetoptError => None
  | Parsed opts =>
      let result := fold_left set_option opts defaults in
      Some (mkOptions (api_key result) (artist result)
                      (clamp (sample_size result))
                      (word_count result) (help result))
  end.

(** [print_usage_and_exit], lines 171-173, for [sys.argv = argv]: the
    usage line is formatted with [sys.argv[0]], which raises [IndexError]
    on an empty [sys.argv] before anything is printed. *)
Definition print_usage_and_exit (argv : list string) : exit :=
  match argv with
  | [] => Crashed IndexError
  | _ :: _ => Usage
  end.

(** [main], lines 176-200, for [sys.argv = argv]. *)
Definition main (argv : list string) (r : Rng) : exit :=
  if (List.length argv =? 1)%nat then print_usage_and_exit argv
  else
    match parse_cmdline_options (tl argv) with
    | None => print_usage_and_exit argv
    | Some options =>
        if help options then print_usage_and_exit argv
        else
          match api_key options, artist options with
          | Some k, Some a =>
              match retrieve k a (sample_size options) with
              | ApiFailure message => ApiErrorExit message
              | RetrievalCrash => CrashedInRetrieval
              | Retrieved bodies =>
                  match generate_song (encode_corpus bodies)
                                      (word_count options) r with
                  | Ok (song, _) => SongPrinted song
                  | Err e => Crashed e
                  end
              end
          | _, _ => print_usage_and_exit argv
          end
    end.

End Externals.

(** *** What the options say, read off the list of pairs *)

Definition is_opt (short long : string) (oa : string * string) : bool :=
  (fst oa =? short) || (fst oa =? long).

(** The argument of the last pair that satisfies [p]. *)
Definition last_arg (p : string * string -> bool) (opts : list (string * string))
  : option string :=
  option_map snd (find p (rev opts)).

(** The integer given by the last pair named [short] or [long] whose
    argument [int] accepts. *)
Definition last_int (int : string -> option Z) (short long : string)
    (opts : list (string * string)) : option Z :=
  match find (fun oa => is_opt short long oa
                        && match int (snd oa) with
                           | Some _ => true
                           | None => false
                           end)
             (rev opts) with
  | Some oa => int (snd oa)
  | None => None
  end.

(** *** Sample externals *)

(** An [int] that reads two numerals. *)
Definition two_numerals (s : string) : option Z :=
  if s =? "200" then Some 200%Z
  else if s =? "1" then Some 1%Z
  else None.

(** A [getopt] that yields the pairs of
    [-k KEY -a ARTIST --samplesize 200 --wordcount 1 -w] for any
    arguments. *)
Definition fixed_getopt (args : list string) : getopt_result :=
  Parsed [("-k", "KEY"); ("-a", "ARTIST"); ("--samplesize", "200");
          ("--wordcount", "1"); ("-w", "")].

(** A [getopt] that finds no option. *)
Definition no_options (args : list string) : getopt_result := Parsed [].

(** A network layer that returns one lyric body, and one that fails
    outside the clamped range of sample sizes. *)
Definition one_body (k a : string) (n : Z) : retrieval :=
  Retrieved ["a b c"].

Definition one_body_in_range (k a : string) (n : Z) : retrieval :=
  if ((5 <=? n) && (n <=? 100))%Z then Retrieved ["a b c"] else RetrievalCrash.

End Cli.

(** * Properties *)

(** ** Facts about [split], [join] and [replace] *)

Module PyStrFacts.
Import PyStr.

Lemma append_empty_r (s : string) : (s ++ EmptyString)%string = s.
Proof. induction s as [|c s IH]; simpl; [|rewrite IH]; reflexivity. Qed.

Lemma split_nonempty (sep : ascii) (s : string) : split sep s <> [].
Proof.
  destruct s as [|c s]; simpl; [discriminate|].
  destruct (Ascii.eqb c sep); [discriminate|].
  destruct (split sep s); discriminate.
Qed.

Lemma join_cons_char (sep : string) (c : ascii) (w : string) (ws : list string) :
  join sep (String c w :: ws) = String c (join sep (w :: ws)).
Proof. destruct ws; reflexivity. Qed.

Lemma join_cons_empty (sep : ascii) (w : string) (ws : list string) :
  join (String sep EmptyString) (EmptyString :: w :: ws)
  = String sep (join (String sep EmptyString) (w :: ws)).
Proof. reflexivity. Qed.

(** Joining the pieces of a split with the separator gives the string back. *)
Lemma join_split (sep : ascii) (s : string) :
  join (String sep EmptyString) (split sep s) = s.
Proof.
  induction s as [|c s IH]; [reflexivity|].
  simpl split. destruct (Ascii.eqb_spec c sep) as [->|Hne].
  - pose proof (split_nonempty sep s) as Hs.
    destruct (split sep s) as [|w ws]; [contradiction|].
    rewrite join_cons_empty, IH. reflexivity.
  - pose proof (split_nonempty sep s) as Hs.
    destruct (split sep s) as [|w ws]; [contradiction|].
    rewrite join_cons_char, IH. reflexivity.
Qed.

(** No piece of a split contains the separator. *)
Lemma split_no_sep (sep : ascii) (s : string) :
  Forall (fun w => mem_char sep w = false) (split sep s).
Proof.
  induction s as [|c s IH]; simpl.
  - constructor; [reflexivity|constructor].
  - destruct (Ascii.eqb c sep) eqn:E.
    + constructor; [reflexivity|exact IH].
    + destruct (split sep s) as [|w ws].
      * constructor; [simpl; rewrite E; reflexivity|constructor].
      * inversion IH; subst. constructor; [|assumption].
        simpl. rewrite E. assumption.
Qed.

(** [replace("\n ", "\n")] copies a prefix without line break unchanged. *)
Lemma replace_nlsp_clean_app (w rest : string) :
  mem_char nl w = false ->
  replace NL_SP NL (w ++ rest) = (w ++ replace NL_SP NL rest)%string.
Proof.
  unfold replace. induction w as [|c w IH]; intros Hw; [reflexivity|].
  simpl in Hw. apply orb_false_iff in Hw as [Hc Hw].
  change ((String c w ++ rest)%string) with (String c (w ++ rest)).
  cbn [replace_from].
  assert (Hp : prefix NL_SP (String c (w ++ rest)) = false).
  { unfold NL_SP. cbn [prefix].
    destruct (ascii_dec nl c) as [e|n]; [|reflexivity].
    subst c. rewrite Ascii.eqb_refl in Hc. discriminate. }
  rewrite Hp, (IH Hw). reflexivity.
Qed.

(** At a separator ["\n "], [replace] emits the line break alone. *)
Lemma replace_nlsp_sep (rest : string) :
  replace NL_SP NL (NL_SP ++ rest) = String nl (replace NL_SP NL rest).
Proof.
  unfold replace, NL_SP, NL. cbn. destruct rest; reflexivity.
Qed.

(** Decoding the ["\n "]-joined lines gives the ["\n"]-joined lines. *)
Lemma replace_join_lines (lines : list string) :
  Forall (fun w => mem_char nl w = false) lines ->
  replace NL_SP NL (join NL_SP lines) = join NL lines.
Proof.
  induction lines as [|x rest IH]; intros H; [reflexivity|].
  inversion H as [|? ? Hx Hrest]; subst.
  destruct rest as [|y rest'].
  - cbn [join]. rewrite <- (append_empty_r x) at 1.
    rewrite (replace_nlsp_clean_app x EmptyString Hx).
    apply append_empty_r.
  - change (join NL_SP (x :: y :: rest'))
      with ((x ++ NL_SP ++ join NL_SP (y :: rest'))%string).
    rewrite (replace_nlsp_clean_app _ _ Hx), replace_nlsp_sep, (IH Hrest).
    reflexivity.
Qed.

(** How [replace("\n\n", "\n")] steps over the first character. *)
Lemma collapse_doubled (s : string) :
  replace NL_NL NL (String nl (String nl s)) = String nl (replace NL_NL NL s).
Proof. unfold replace. cbn. destruct s; reflexivity. Qed.

Lemma collapse_other (c : ascii) (s : string) :
  prefix NL_NL (String c s) = false ->
  replace NL_NL NL (String c s) = String c (replace NL_NL NL s).
Proof. unfold replace. cbn [replace_from]. intros ->. reflexivity. Qed.

Lemma prefix_nlnl (c : ascii) (s : string) :
  prefix NL_NL (String c s) = true ->
  c = nl /\ exists s', s = String nl s'.
Proof.
  unfold NL_NL. cbn [prefix].
  destruct (ascii_dec nl c) as [<-|]; [|discriminate].
  destruct s as [|c' s']; cbn [prefix]; [discriminate|].
  destruct (ascii_dec nl c') as [<-|]; [|discriminate].
  intros _. split; [reflexivity|]. exists s'. reflexivity.
Qed.

(** A text without doubled line break is left alone. *)
Lemma collapse_id (s : string) :
  doubled_break s = false -> replace NL_NL NL s = s.
Proof.
  induction s as [|c s IH]; intros H; [reflexivity|].
  destruct (prefix NL_NL (String c s)) eqn:Hp.
  - apply prefix_nlnl in Hp as [-> [s' ->]].
    cbn in H. discriminate.
  - rewrite (collapse_other _ _ Hp). f_equal. apply IH.
    destruct s as [|c' s']; [reflexivity|].
    cbn [doubled_break] in H. apply orb_false_iff in H as [_ H]. exact H.
Qed.

Lemma no_break_no_doubled (s : string) :
  mem_char nl s = false -> doubled_break s = false.
Proof.
  induction s as [|c s IH]; intros H; [reflexivity|].
  cbn [mem_char] in H. apply orb_false_iff in H as [Hc Hs].
  destruct s as [|c' s']; [reflexivity|].
  pose proof (IH Hs) as IH'.
  change (doubled_break (String c (String c' s')))
    with ((Ascii.eqb c nl && Ascii.eqb c' nl) || doubled_break (String c' s')).
  rewrite Hc, IH'. reflexivity.
Qed.

Lemma split_clean (sep : ascii) (s : string) :
  mem_char sep s = false -> split sep s = [s].
Proof.
  induction s as [|c s IH]; intros H; [reflexivity|].
  cbn [mem_char] in H. apply orb_false_iff in H as [Hc Hs].
  cbn [split]. rewrite Hc, (IH Hs). reflexivity.
Qed.

(** The last piece of a split: the part after the last separator. *)
Lemma last_split_sep (sep : ascii) (s : string) :
  last (split sep (String sep s)) EmptyString = last (split sep s) EmptyString.
Proof.
  cbn [split]. rewrite Ascii.eqb_refl.
  pose proof (split_nonempty sep s).
  destruct (split sep s); [contradiction|reflexivity].
Qed.

Lemma last_split_other (sep c : ascii) (s : string) :
  Ascii.eqb c sep = false ->
  last (split sep (String c s)) EmptyString
  = if mem_char sep s then last (split sep s) EmptyString else String c s.
Proof.
  intros Hc. destruct (mem_char sep s) eqn:Hm.
  - cbn [split]. rewrite Hc.
    destruct (split sep s) as [|w ws] eqn:Hs;
      [exfalso; exact (split_nonempty sep s Hs)|].
    destruct ws as [|w' ws'].
    + exfalso. pose proof (join_split sep s) as Hj. rewrite Hs in Hj.
      cbn in Hj. subst w.
      pose proof (split_no_sep sep s) as Hf. rewrite Hs in Hf.
      inversion Hf; subst. congruence.
    + reflexivity.
  - cbn [split]. rewrite Hc, (split_clean _ _ Hm). reflexivity.
Qed.

(** Collapsing doubled line breaks keeps the last line, and keeps
    whether the text has a line break at all. *)
Lemma collapse_last_and_breaks (s : string) :
  let Q t :=
    last (split nl (replace NL_NL NL t)) EmptyString
    = last (split nl t) EmptyString
    /\ mem_char nl (replace NL_NL NL t) = mem_char nl t in
  Q s /\ forall c, Q (String c s).
Proof.
  intros Q. induction s as [|a s [IHs IHc]].
  - split; [split; reflexivity|].
    intros c. unfold Q. rewrite collapse_other; [split; reflexivity|].
    unfold NL_NL. cbn [prefix]. destruct (ascii_dec nl c); reflexivity.
  - split; [apply IHc|]. intros c.
    destruct (prefix NL_NL (String c (String a s))) eqn:Hp.
    + apply prefix_nlnl in Hp as [-> [s' Hs']]. injection Hs' as -> <-.
      unfold Q. rewrite collapse_doubled.
      destruct IHs as [IH1 IH2]. split.
      * rewrite !last_split_sep. exact IH1.
      * cbn [mem_char]. rewrite Ascii.eqb_refl. reflexivity.
    + unfold Q. rewrite (collapse_other _ _ Hp).
      destruct (IHc a) as [IH1 IH2]. split.
      * destruct (Ascii.eqb c nl) eqn:Hc.
        -- apply Ascii.eqb_eq in Hc. subst c.
           rewrite !last_split_sep. exact IH1.
        -- rewrite !(last_split_other _ _ _ Hc), IH2.
           destruct (mem_char nl (String a s)) eqn:Hm; [exact IH1|].
           rewrite (collapse_id _ (no_break_no_doubled _ Hm)). reflexivity.
      * cbn [mem_char]. rewrite IH2. reflexivity.
Qed.

End PyStrFacts.

(** ** The lyric encoding round trip *)

Module LyricsFacts.
Import PyStr Lyrics PyStrFacts.

Lemma kept_lines_no_break (text : string) :
  Forall (fun w => mem_char nl w = false) (kept_lines text).
Proof.
  unfold kept_lines, physical_lines, drop_last4.
  pose proof (split_no_sep nl (replace NL_NL NL text)) as H.
  destruct (String.eqb _ _); [|exact H].
  rewrite Forall_forall in *. intros w Hw. apply H.
  rewrite <- (firstn_skipn
                (List.length (split nl (replace NL_NL NL text)) - 4)
                (split nl (replace NL_NL NL text))).
  apply in_or_app. left. exact Hw.
Qed.

(** Splitting on spaces and joining with spaces cancel out, so decoding
    only has to undo the ["\n "] separators. *)
Lemma decode_tokenize_kept (text : string) :
  Decode (Tokenize text) = join NL (kept_lines text).
Proof.
  unfold Decode, Tokenize, tokens.
  change " " with (String sp EmptyString).
  rewrite join_split.
  change (encode_lyrics text) with (join NL_SP (kept_lines text)).
  apply replace_join_lines, kept_lines_no_break.
Qed.

Lemma last_line_collapse (text : string) :
  last_line (physical_lines text) = last_line (split nl text).
Proof.
  unfold last_line, physical_lines.
  apply (proj1 (collapse_last_and_breaks text)).
Qed.

Lemma decode_tokenize_collapse (text : string) :
  last_line (split nl text) <> licence_sentinel ->
  Decode (Tokenize text) = replace NL_NL NL text.
Proof.
  intros H. rewrite decode_tokenize_kept. unfold kept_lines.
  rewrite last_line_collapse.
  destruct (String.eqb_spec (last_line (split nl text)) licence_sentinel);
    [contradiction|].
  unfold physical_lines. apply (join_split nl).
Qed.

(** A doubled line break leaves an empty piece after the first one. *)
Lemma doubled_break_empty_line (s : string) :
  doubled_break s = true -> In EmptyString (tl (split nl s)).
Proof.
  induction s as [|c s IH]; [discriminate|].
  destruct s as [|c' s']; [discriminate|].
  change (doubled_break (String c (String c' s')))
    with ((Ascii.eqb c nl && Ascii.eqb c' nl) || doubled_break (String c' s')).
  intros H. apply orb_true_iff in H as [H|H].
  - apply andb_true_iff in H as [Hc Hc'].
    apply Ascii.eqb_eq in Hc, Hc'. subst c c'.
    cbn [split]. rewrite Ascii.eqb_refl. cbn [tl]. left. reflexivity.
  - specialize (IH H). cbn [split]. cbn [split] in IH.
    destruct (Ascii.eqb c nl).
    + cbn [tl]. destruct (Ascii.eqb c' nl).
      * right. exact IH.
      * destruct (split nl s') as [|w ws]; cbn [tl] in IH |- *;
          right; exact IH.
    + destruct (Ascii.eqb c' nl).
      * exact IH.
      * destruct (split nl s') as [|w ws]; exact IH.
Qed.

(** A text none of whose lines is empty or made of spaces has no
    doubled line break. *)
Lemma no_space_only_no_doubled (text : string) :
  (forall line, In line (split nl text) -> all_spaces line = false) ->
  doubled_break text = false.
Proof.
  intros H. destruct (doubled_break text) eqn:E; [exfalso|reflexivity].
  apply doubled_break_empty_line in E.
  assert (Hin : In EmptyString (split nl text)).
  { destruct (split nl text); [destruct E|right; exact E]. }
  specialize (H _ Hin). discriminate.
Qed.

(** C5.  For every text that has no space-only line (no line without a
    character other than a space, the empty line included) and does not
    end in the licence sentinel, decoding its token sequence gives the
    text back, so the original line structure is reproduced exactly. *)
Theorem roundtrip_line_structure (text : string) :
  (forall line, In line (split nl text) -> all_spaces line = false) ->
  last_line (split nl text) <> licence_sentinel ->
  Decode (Tokenize text) = text
  /\ split nl (Decode (Tokenize text)) = split nl text.
Proof.
  intros Hlines Hlast.
  assert (E : Decode (Tokenize text) = text).
  { rewrite (decode_tokenize_collapse text Hlast).
    apply collapse_id, no_space_only_no_doubled, Hlines. }
  split; [exact E|]. rewrite E. reflexivity.
Qed.

Lemma roundtrip_line_structure_witness :
  Decode (Tokenize two_line_text) = two_line_text
  /\ split nl (Decode (Tokenize two_line_text)) = split nl two_line_text.
Proof.
  apply roundtrip_line_structure.
  - intros line Hin. vm_compute in Hin.
    destruct Hin as [<-|[<-|[]]]; reflexivity.
  - vm_compute. discriminate.
Defined.

End LyricsFacts.

(** ** The distribution builder *)

Module DistFacts.
Import PyStr Lyrics Dist.

Ltac key_cases :=
  repeat match goal with
         | |- context [key_eq_dec ?k ?k'] => destruct (key_eq_dec k k')
         | H : context [key_eq_dec ?k ?k'] |- _ => destruct (key_eq_dec k k')
         end;
  subst; try congruence.

(** *** One update of the dict *)

Lemma lookup_none_successors (key : PairKey) (d : Distribution) :
  lookup key d = None -> successors key d = [].
Proof. unfold successors. intros ->. reflexivity. Qed.

Lemma lookup_some_successors (key : PairKey) (d : Distribution) (ws : list string) :
  lookup key d = Some ws -> successors key d = ws.
Proof. unfold successors. intros ->. reflexivity. Qed.

(** The new word goes to the end of the entry of its key, and to no other
    entry. *)
Lemma successors_add_successor (key k : PairKey) (w : string) (d : Distribution) :
  successors key (add_successor k w d)
  = successors key d ++ (if key_eq_dec k key then [w] else []).
Proof.
  unfold successors. induction d as [|[k0 ws0] d IH]; simpl.
  - key_cases.
  - destruct (key_eq_dec k0 k) as [->|Hk0]; simpl.
    + destruct (key_eq_dec k key) as [->|Hk]; [reflexivity|].
      rewrite app_nil_r. reflexivity.
    + destruct (key_eq_dec k0 key) as [->|Hk0'].
      * destruct (key_eq_dec k key); [congruence|].
        rewrite app_nil_r. reflexivity.
      * exact IH.
Qed.

Lemma add_successor_nonempty (k : PairKey) (w : string) (d : Distribution) :
  successors_nonempty d -> successors_nonempty (add_successor k w d).
Proof.
  unfold successors_nonempty.
  induction d as [|[k0 ws0] d IH]; intros H; simpl.
  - constructor; [discriminate|constructor].
  - inversion H as [|? ? H0 Hd]; subst.
    destruct (key_eq_dec k0 k).
    + constructor; [|exact Hd]. simpl. destruct ws0; discriminate.
    + constructor; [exact H0|apply IH, Hd].
Qed.

(** Keys stay distinct: the association list is a dict. *)
Lemma keys_add_successor (k : PairKey) (w : string) (d : Distribution) :
  keys (add_successor k w d)
  = if in_dec key_eq_dec k (keys d) then keys d else keys d ++ [k].
Proof.
  unfold keys. induction d as [|[k0 ws0] d IH]; simpl; [reflexivity|].
  destruct (key_eq_dec k0 k) as [->|Hne]; simpl; [reflexivity|].
  rewrite IH. destruct (in_dec key_eq_dec k (map fst d)); reflexivity.
Qed.

Lemma add_successor_nodup (k : PairKey) (w : string) (d : Distribution) :
  NoDup (keys d) -> NoDup (keys (add_successor k w d)).
Proof.
  intros H. rewrite keys_add_successor.
  destruct (in_dec key_eq_dec k (keys d)) as [|Hn]; [exact H|].
  apply NoDup_app; [exact H|constructor; [intros []|constructor]|].
  intros x Hx [<-|[]]. exact (Hn Hx).
Qed.

Lemma in_keys_lookup (key : PairKey) (d : Distribution) :
  In key (keys d) <-> exists ws, lookup key d = Some ws.
Proof.
  unfold keys. induction d as [|[k0 ws0] d IH]; simpl.
  - split; [intros []|intros [ws H]; discriminate].
  - destruct (key_eq_dec k0 key) as [->|Hne].
    + split; [intros _; eexists; reflexivity|intros _; left; reflexivity].
    + rewrite <- IH. split; [intros [H|H]; [contradiction|exact H]|].
      intros H. right. exact H.
Qed.

Lemma lookup_in (key : PairKey) (d : Distribution) (ws : list string) :
  lookup key d = Some ws -> In (key, ws) d.
Proof.
  induction d as [|[k0 ws0] d IH]; simpl; [discriminate|].
  destruct (key_eq_dec k0 key) as [->|Hne].
  - intros [= ->]. left. reflexivity.
  - intros H. right. apply IH, H.
Qed.

Lemma lookup_nonempty (key : PairKey) (d : Distribution) (ws : list string) :
  successors_nonempty d -> lookup key d = Some ws -> ws <> [].
Proof.
  intros Hd Hl. apply lookup_in in Hl.
  unfold successors_nonempty in Hd. rewrite Forall_forall in Hd.
  exact (Hd _ Hl).
Qed.

(** *** One song *)

Lemma followers_step (key : PairKey) (x y z : string) (rest : list string) :
  followers key (x :: y :: z :: rest)
  = (if key_eq_dec (x, y) key then [z] else []) ++ followers key (y :: z :: rest).
Proof. reflexivity. Qed.

Lemma followers_short (key : PairKey) (toks : list string) :
  List.length toks < 3 -> followers key toks = [].
Proof.
  destruct toks as [|x [|y [|z rest]]]; simpl; intros H;
    try reflexivity; lia.
Qed.

Lemma successors_scan_song (key : PairKey) (rest : list string) :
  forall (d : Distribution) (p1 p2 : string),
    successors key (scan_song d p1 p2 rest)
    = successors key d ++ followers key (p1 :: p2 :: rest).
Proof.
  induction rest as [|w rest IH]; intros d p1 p2.
  - simpl. rewrite app_nil_r. reflexivity.
  - cbn [scan_song]. rewrite IH, successors_add_successor, followers_step.
    rewrite app_assoc. reflexivity.
Qed.

Lemma scan_song_nonempty (rest : list string) :
  forall (d : Distribution) (p1 p2 : string),
    successors_nonempty d -> successors_nonempty (scan_song d p1 p2 rest).
Proof.
  induction rest as [|w rest IH]; intros d p1 p2 H; [exact H|].
  cbn [scan_song]. apply IH, add_successor_nonempty, H.
Qed.

Lemma scan_song_nodup (rest : list string) :
  forall (d : Distribution) (p1 p2 : string),
    NoDup (keys d) -> NoDup (keys (scan_song d p1 p2 rest)).
Proof.
  induction rest as [|w rest IH]; intros d p1 p2 H; [exact H|].
  cbn [scan_song]. apply IH, add_successor_nodup, H.
Qed.

(** The two shapes of [add_song]. *)
Lemma add_song_short (d : Distribution) (s : string) :
  List.length (tokens s) < 3 -> add_song d s = d.
Proof.
  intros H. unfold add_song.
  destruct (Nat.ltb_spec (List.length (tokens s)) 3); [reflexivity|lia].
Qed.

Lemma add_song_long (d : Distribution) (s : string) :
  3 <= List.length (tokens s) ->
  exists p1 p2 w rest,
    tokens s = p1 :: p2 :: w :: rest
    /\ add_song d s = scan_song d p1 p2 (w :: rest).
Proof.
  intros H. unfold add_song.
  destruct (Nat.ltb_spec (List.length (tokens s)) 3); [lia|].
  destruct (tokens s) as [|p1 [|p2 [|w rest]]]; simpl in H; try lia.
  exists p1, p2, w, rest. split; reflexivity.
Qed.

Lemma successors_add_song (key : PairKey) (d : Distribution) (s : string) :
  successors key (add_song d s) = successors key d ++ followers key (tokens s).
Proof.
  destruct (Nat.lt_ge_cases (List.length (tokens s)) 3) as [Hs|Hl].
  - rewrite (add_song_short _ _ Hs), (followers_short _ _ Hs), app_nil_r.
    reflexivity.
  - destruct (add_song_long d s Hl) as (p1 & p2 & w & rest & -> & ->).
    apply successors_scan_song.
Qed.

Lemma add_song_nonempty (d : Distribution) (s : string) :
  successors_nonempty d -> successors_nonempty (add_song d s).
Proof.
  intros H. destruct (Nat.lt_ge_cases (List.length (tokens s)) 3) as [Hs|Hl].
  - rewrite (add_song_short _ _ Hs). exact H.
  - destruct (add_song_long d s Hl) as (p1 & p2 & w & rest & _ & ->).
    apply scan_song_nonempty, H.
Qed.

Lemma add_song_nodup (d : Distribution) (s : string) :
  NoDup (keys d) -> NoDup (keys (add_song d s)).
Proof.
  intros H. destruct (Nat.lt_ge_cases (List.length (tokens s)) 3) as [Hs|Hl].
  - rewrite (add_song_short _ _ Hs). exact H.
  - destruct (add_song_long d s Hl) as (p1 & p2 & w & rest & _ & ->).
    apply scan_song_nodup, H.
Qed.

(** *** The whole corpus *)

Lemma successors_fold (key : PairKey) (corpus : list string) :
  forall d : Distribution,
    successors key (fold_left add_song corpus d)
    = successors key d ++ observed_successors key corpus.
Proof.
  unfold observed_successors.
  induction corpus as [|s corpus IH]; intros d; simpl.
  - rewrite app_nil_r. reflexivity.
  - rewrite IH, successors_add_song, app_assoc. reflexivity.
Qed.

(** The dict holds, for each pair, exactly the successors observed in the
    corpus, in order of occurrence. *)
Lemma successors_build (key : PairKey) (corpus : list string) :
  successors key (build_distribution corpus) = observed_successors key corpus.
Proof. unfold build_distribution. rewrite successors_fold. reflexivity. Qed.

Lemma fold_nonempty (corpus : list string) :
  forall d : Distribution,
    successors_nonempty d -> successors_nonempty (fold_left add_song corpus d).
Proof.
  induction corpus as [|s corpus IH]; intros d H; simpl; [exact H|].
  apply IH, add_song_nonempty, H.
Qed.

Lemma build_nonempty_successors (corpus : list string) :
  successors_nonempty (build_distribution corpus).
Proof. apply fold_nonempty. constructor. Qed.

Lemma build_nodup (corpus : list string) :
  NoDup (keys (build_distribution corpus)).
Proof.
  unfold build_distribution.
  assert (G : forall d, NoDup (keys d) ->
                        NoDup (keys (fold_left add_song corpus d))).
  { induction corpus as [|s corpus IH]; intros d H; simpl; [exact H|].
    apply IH, add_song_nodup, H. }
  apply G. constructor.
Qed.

Lemma fold_skip_short (corpus : list string) :
  forall d : Distribution,
    fold_left add_song
      (filter (fun s => 3 <=? List.length (tokens s))%nat corpus) d
    = fold_left add_song corpus d.
Proof.
  induction corpus as [|s corpus IH]; intros d; [reflexivity|].
  cbn [filter].
  destruct (Nat.leb_spec 3 (List.length (tokens s))) as [Hl|Hs];
    cbn [fold_left].
  - apply IH.
  - rewrite (add_song_short d s Hs). apply IH.
Qed.

Lemma build_all_short (corpus : list string) :
  Forall (fun s => List.length (tokens s) < 3) corpus ->
  build_distribution corpus = [].
Proof.
  unfold build_distribution. generalize (@nil (PairKey * list string)).
  induction corpus as [|s corpus IH]; intros d H; simpl; [reflexivity|].
  inversion H as [|? ? Hs Hrest]; subst.
  rewrite (add_song_short d s Hs). apply IH, Hrest.
Qed.

(** *** Observed successors come from the songs *)

Lemma followers_in (a b c : string) (toks : list string) :
  In c (followers (a, b) toks) -> exists pre post, toks = pre ++ a :: b :: c :: post.
Proof.
  induction toks as [|x rest IH]; [intros []|].
  destruct rest as [|y [|z r]]; try (intros []).
  rewrite followers_step. intros H. apply in_app_or in H as [H|H].
  - destruct (key_eq_dec (x, y) (a, b)) as [E|]; [|destruct H].
    injection E as -> ->. destruct H as [<-|[]].
    exists [], r. reflexivity.
  - destruct (IH H) as (pre & post & E).
    exists (x :: pre), post. rewrite E. reflexivity.
Qed.

Lemma followers_first (p1 p2 w : string) (rest : list string) :
  In w (followers (p1, p2) (p1 :: p2 :: w :: rest)).
Proof.
  rewrite followers_step. apply in_or_app. left.
  destruct (key_eq_dec (p1, p2) (p1, p2)); [left; reflexivity|congruence].
Qed.

Lemma observed_in_song (a b c : string) (corpus : list string) :
  In c (observed_successors (a, b) corpus) ->
  exists song pre post,
    In song corpus /\ tokens song = pre ++ a :: b :: c :: post.
Proof.
  unfold observed_successors. intros H.
  apply in_flat_map in H as (song & Hs & Hc).
  apply followers_in in Hc as (pre & post & E).
  exists song, pre, post. split; assumption.
Qed.

(** A recorded entry: its key and each of its successors were observed
    consecutively in one song. *)
Lemma lookup_build_observed (a b : string) (ws : list string) (corpus : list string) :
  lookup (a, b) (build_distribution corpus) = Some ws ->
  ws <> [] /\ ws = observed_successors (a, b) corpus.
Proof.
  intros H. split.
  - exact (lookup_nonempty _ _ _ (build_nonempty_successors corpus) H).
  - rewrite <- successors_build. symmetry. apply lookup_some_successors, H.
Qed.

Lemma long_song_builds_key (corpus : list string) (s : string) :
  In s corpus -> 3 <= List.length (tokens s) ->
  build_distribution corpus <> [].
Proof.
  intros Hin Hl E.
  destruct (tokens s) as [|p1 [|p2 [|w rest]]] eqn:Ht; simpl in Hl; try lia.
  assert (Hw : In w (observed_successors (p1, p2) corpus)).
  { unfold observed_successors. apply in_flat_map. exists s. split; [exact Hin|].
    rewrite Ht. apply followers_first. }
  rewrite <- successors_build, E in Hw. destruct Hw.
Qed.

(** *** Counting occurrences *)

Lemma count_occ_followers (a b t : string) (toks : list string) :
  count_occ string_dec (followers (a, b) toks) t = count_triple a b t toks.
Proof.
  induction toks as [|x rest IH]; [reflexivity|].
  destruct rest as [|y [|z r]]; try reflexivity.
  rewrite followers_step, count_occ_app, IH.
  change (count_triple a b t (x :: y :: z :: r))
    with ((if key_eq_dec (x, y) (a, b)
           then if string_dec z t then 1 else 0
           else 0) + count_triple a b t (y :: z :: r)).
  f_equal. destruct (key_eq_dec (x, y) (a, b)); [|reflexivity].
  simpl. destruct (string_dec z t); reflexivity.
Qed.

Lemma count_occ_observed (a b t : string) (corpus : list string) :
  count_occ string_dec (observed_successors (a, b) corpus) t
  = occurrences_after a b t corpus.
Proof.
  unfold observed_successors, occurrences_after.
  induction corpus as [|s corpus IH]; [reflexivity|].
  simpl. rewrite count_occ_app, IH, count_occ_followers. reflexivity.
Qed.

End DistFacts.

Module DistributionSpec.
Import PyStr Lyrics Dist DistFacts.

(** C6.  The three invariants of the built distribution: a key is present
    only if some song has the pair as two consecutive tokens followed by
    at least one more token; songs with fewer than 3 tokens contribute
    nothing (removing them from the corpus gives the same distribution);
    every successor sequence is non-empty. *)
Theorem build_distribution_invariants (corpus : list string) :
  (forall a b, In (a, b) (keys (build_distribution corpus)) ->
               exists song, In song corpus /\ pair_followed_in a b (tokens song))
  /\ build_distribution
       (filter (fun s => 3 <=? List.length (tokens s))%nat corpus)
     = build_distribution corpus
  /\ successors_nonempty (build_distribution corpus).
Proof.
  split; [|split].
  - intros a b Hk. apply in_keys_lookup in Hk as [ws Hl].
    destruct (lookup_build_observed _ _ _ _ Hl) as [Hne E].
    destruct ws as [|c ws]; [congruence|].
    assert (Hc : In c (observed_successors (a, b) corpus))
      by (rewrite <- E; left; reflexivity).
    apply observed_in_song in Hc as (song & pre & post & Hin & Ht).
    exists song. split; [exact Hin|]. exists pre, c, post. exact Ht.
  - apply fold_skip_short.
  - apply build_nonempty_successors.
Qed.

Lemma build_distribution_invariants_witness :
  In ("b", "c") (keys (build_distribution ["x y"; "a b c d"]))
  /\ exists song, In song ["x y"; "a b c d"]
                  /\ pair_followed_in "b" "c" (tokens song).
Proof.
  assert (H : In ("b", "c") (keys (build_distribution ["x y"; "a b c d"])))
    by (vm_compute; right; left; reflexivity).
  split; [exact H|].
  exact (proj1 (build_distribution_invariants ["x y"; "a b c d"]) "b" "c" H).
Defined.

(** C7.  A non-empty corpus whose songs all split into at least 3 tokens
    builds a distribution with at least one key. *)
Theorem build_distribution_nonempty (corpus : list string) :
  corpus <> [] ->
  Forall (fun s => 3 <= List.length (tokens s)) corpus ->
  keys (build_distribution corpus) <> [].
Proof.
  intros Hne Hall E.
  destruct corpus as [|s rest]; [congruence|].
  inversion Hall as [|? ? Hs _]; subst.
  apply (long_song_builds_key (s :: rest) s (or_introl eq_refl) Hs).
  unfold keys in E. apply map_eq_nil in E. exact E.
Qed.

Lemma build_distribution_nonempty_witness :
  keys (build_distribution ["a b c"; "d e f g"]) <> [].
Proof.
  apply build_distribution_nonempty; [discriminate|].
  repeat constructor.
Defined.

(** C8.  The successor sequence stored under a key is the sequence of
    tokens that occurred immediately after that pair, in order of
    occurrence (song by song, left to right), so a token that occurred
    [N] times after the pair appears [N] times in it. *)
Theorem successors_encode_frequency
    (corpus : list string) (a b : string) (ws : list string) :
  lookup (a, b) (build_distribution corpus) = Some ws ->
  ws = observed_successors (a, b) corpus
  /\ forall t, count_occ string_dec ws t = occurrences_after a b t corpus.
Proof.
  intros H. destruct (lookup_build_observed _ _ _ _ H) as [_ E].
  split; [exact E|]. intros t. rewrite E. apply count_occ_observed.
Qed.

Lemma successors_encode_frequency_witness :
  lookup ("a", "b") (build_distribution ["a b c a b d"; "x a b c"])
  = Some ["c"; "d"; "c"]
  /\ count_occ string_dec ["c"; "d"; "c"] "c"
     = occurrences_after "a" "b" "c" ["a b c a b d"; "x a b c"].
Proof.
  assert (H : lookup ("a", "b") (build_distribution ["a b c a b d"; "x a b c"])
              = Some ["c"; "d"; "c"]) by reflexivity.
  split; [exact H|].
  exact (proj2 (successors_encode_frequency _ _ _ _ H) "c").
Defined.

End DistributionSpec.

(** ** The chain walk *)

Module WalkFacts.
Import PyStr Lyrics Dist DistFacts Walk.

(** *** The monad and [random.choice] *)

Lemma bind_ok {A B} (m : M A) (f : A -> M B) (r r' : Rng) (a : A) :
  m r = Ok (a, r') -> bind m f r = f a r'.
Proof. unfold bind. intros ->. reflexivity. Qed.

Lemma bind_err {A B} (m : M A) (f : A -> M B) (r : Rng) (e : exn) :
  m r = Err e -> bind m f r = Err e.
Proof. unfold bind. intros ->. reflexivity. Qed.

Lemma bind_inv_ok {A B} (m : M A) (f : A -> M B) (r r2 : Rng) (b : B) :
  bind m f r = Ok (b, r2) ->
  exists a r1, m r = Ok (a, r1) /\ f a r1 = Ok (b, r2).
Proof.
  unfold bind. destruct (m r) as [[a r1]|e]; [|discriminate].
  intros H. exists a, r1. split; [reflexivity|exact H].
Qed.

Lemma bind_inv_err {A B} (m : M A) (f : A -> M B) (r : Rng) (e : exn) :
  bind m f r = Err e ->
  m r = Err e \/ exists a r1, m r = Ok (a, r1) /\ f a r1 = Err e.
Proof.
  unfold bind. destruct (m r) as [[a r1]|e']; intros H.
  - right. exists a, r1. split; [reflexivity|exact H].
  - left. injection H as ->. reflexivity.
Qed.

Lemma choice_empty {A} (r : Rng) : choice (@nil A) r = Err IndexError.
Proof. reflexivity. Qed.

(** On a non-empty sequence [random.choice] returns one of its items and
    consumes one draw. *)
Lemma choice_nonempty {A} (seq : list A) (r : Rng) :
  seq <> [] ->
  exists x, In x seq /\ choice seq r = Ok (x, fun n => r (S n)).
Proof.
  intros Hne. destruct seq as [|y seq]; [congruence|].
  unfold choice.
  destruct (nth_error (y :: seq) (r 0 mod List.length (y :: seq))) as [x|] eqn:E.
  - exists x. split; [exact (nth_error_In _ _ E)|reflexivity].
  - apply nth_error_None in E.
    pose proof (Nat.mod_upper_bound (r 0) (List.length (y :: seq))) as Hb.
    simpl in *. lia.
Qed.

Lemma choice_ok_in {A} (seq : list A) (r r' : Rng) (x : A) :
  choice seq r = Ok (x, r') -> In x seq.
Proof.
  destruct seq as [|y seq]; [discriminate|]. unfold choice.
  destruct (nth_error (y :: seq) (r 0 mod List.length (y :: seq))) as [x'|] eqn:E;
    [|discriminate].
  intros [= <- _]. exact (nth_error_In _ _ E).
Qed.

Lemma choice_err {A} (seq : list A) (r : Rng) (e : exn) :
  choice seq r = Err e -> e = IndexError.
Proof.
  destruct seq as [|y seq]; [intros [= <-]; reflexivity|]. unfold choice.
  destruct (nth_error _ _); [discriminate|intros [= <-]; reflexivity].
Qed.

(** The draw [i] picks item [i mod len]. *)
Lemma choice_nth {A} (seq : list A) (r : Rng) (x : A) :
  nth_error seq (r 0 mod List.length seq) = Some x ->
  choice seq r = Ok (x, fun n => r (S n)).
Proof.
  destruct seq as [|y seq]; [destruct (r 0 mod _); discriminate|].
  unfold choice. intros ->. reflexivity.
Qed.

(** *** One iteration of the main loop *)

Lemma iteration_ok_inv (d : Distribution) (st st' : WalkState)
    (r r' : Rng) (dead_end : bool) :
  iteration d st r = Ok (st', dead_end, r') ->
  exists w1 w2 r1,
    pending d st r w1 w2 r1 /\ outcome d st w1 w2 r1 st' dead_end r'.
Proof.
  unfold iteration. intros H.
  apply bind_inv_ok in H as ([w1 w2] & r1 & Hp & Hk).
  exists w1, w2, r1. split.
  - destruct (word1 st) as [w|] eqn:E1.
    + injection Hp as <- <- <-. rewrite <- E1. constructor. congruence.
    + apply bind_inv_ok in Hp as ([a b] & r0 & Hc & Hr).
      injection Hr as <- <- <-. constructor; assumption.
  - cbn beta iota in Hk.
    destruct (lookup_pending d w1 w2) as [ws|] eqn:El.
    + apply bind_inv_ok in Hk as (w & r2 & Hc & Hr).
      injection Hr as <- <- <-. econstructor; eassumption.
    + injection Hk as <- <- <-. constructor. exact El.
Qed.

Lemma iteration_err (d : Distribution) (st : WalkState) (r : Rng) (e : exn) :
  iteration d st r = Err e -> e = IndexError.
Proof.
  unfold iteration. intros H.
  apply bind_inv_err in H as [H|([w1 w2] & r1 & _ & H)].
  - destruct (word1 st); [discriminate|].
    apply bind_inv_err in H as [H|([a b] & r0 & _ & H)];
      [exact (choice_err _ _ _ H)|discriminate].
  - cbn beta iota in H. destruct (lookup_pending d w1 w2); [|discriminate].
    apply bind_inv_err in H as [H|(w & r0 & _ & H)];
      [exact (choice_err _ _ _ H)|discriminate].
Qed.

(** With at least one key and no empty successor sequence, an iteration
    never fails. *)
Lemma iteration_total (d : Distribution) (st : WalkState) (r : Rng) :
  keys d <> [] -> successors_nonempty d ->
  exists st' dead_end r', iteration d st r = Ok (st', dead_end, r').
Proof.
  intros Hk Hs.
  destruct (iteration d st r) as [[[st' b] r']|e] eqn:E;
    [exists st', b, r'; reflexivity|exfalso].
  unfold iteration in E.
  apply bind_inv_err in E as [E|([w1 w2] & r1 & _ & E)].
  - destruct (word1 st); [discriminate|].
    destruct (choice_nonempty (keys d) r Hk) as ([a b] & _ & Hc).
    rewrite (bind_ok _ _ _ _ _ Hc) in E. discriminate.
  - cbn beta iota in E.
    destruct (lookup_pending d w1 w2) as [ws|] eqn:El; [|discriminate].
    assert (Hne : ws <> []).
    { unfold lookup_pending in El. destruct w1, w2; try discriminate.
      exact (lookup_nonempty _ _ _ Hs El). }
    destruct (choice_nonempty ws r1 Hne) as (w & _ & Hc).
    rewrite (bind_ok _ _ _ _ _ Hc) in E. discriminate.
Qed.

(** An iteration appends one token, and one more at a dead end. *)
Lemma iteration_length (d : Distribution) (st st' : WalkState)
    (r r' : Rng) (dead_end : bool) :
  iteration d st r = Ok (st', dead_end, r') ->
  List.length (song st')
  = List.length (song st) + 1 + (if dead_end then 1 else 0).
Proof.
  intros H. apply iteration_ok_inv in H as (w1 & w2 & r1 & _ & Ho).
  destruct Ho; cbn [song]; rewrite ?length_app; simpl; lia.
Qed.

(** *** The loop *)

Lemma walk_loop_succ (d : Distribution) (n : nat) (st : WalkState)
    (dead : nat) (r : Rng) (st1 : WalkState) (b : bool) (r1 : Rng) :
  iteration d st r = Ok (st1, b, r1) ->
  walk_loop d (S n) st dead r
  = walk_loop d n st1 (if b then S dead else dead) r1.
Proof. intros H. cbn [walk_loop]. rewrite (bind_ok _ _ _ _ _ H). reflexivity. Qed.

Lemma walk_loop_err (d : Distribution) (n : nat) :
  forall st dead r e, walk_loop d n st dead r = Err e -> e = IndexError.
Proof.
  induction n as [|n IH]; intros st dead r e H; [discriminate|].
  cbn [walk_loop] in H.
  apply bind_inv_err in H as [H|([st1 b] & r1 & _ & H)].
  - exact (iteration_err _ _ _ _ H).
  - exact (IH _ _ _ _ H).
Qed.

(** The loop runs to its end, and the output grows by one token per
    iteration plus one per dead end. *)
Lemma walk_loop_total (d : Distribution) (n : nat) :
  keys d <> [] -> successors_nonempty d ->
  forall st dead r,
  exists st' dead' r',
    walk_loop d n st dead r = Ok (st', dead', r')
    /\ List.length (song st') + dead = List.length (song st) + n + dead'.
Proof.
  intros Hk Hs. induction n as [|n IH]; intros st dead r.
  - exists st, dead, r. split; [reflexivity|lia].
  - destruct (iteration_total d st r Hk Hs) as (st1 & b & r1 & Hi).
    destruct (IH st1 (if b then S dead else dead) r1)
      as (st' & dead' & r' & Hw & Hlen).
    exists st', dead', r'. split.
    + rewrite (walk_loop_succ _ _ _ _ _ _ _ _ Hi). exact Hw.
    + pose proof (iteration_length _ _ _ _ _ _ Hi) as Hl.
      destruct b; lia.
Qed.

(** *** Symbolic execution of one iteration *)

Lemma iteration_start_step (d : Distribution) (st : WalkState) (r : Rng)
    (a b w : string) (ws : list string) :
  word1 st = None ->
  nth_error (keys d) (r 0 mod List.length (keys d)) = Some (a, b) ->
  lookup (a, b) d = Some ws ->
  nth_error ws (r 1 mod List.length ws) = Some w ->
  iteration d st r
  = Ok (mkWalk (Some b) (Some w) (song st ++ [Some a]), false,
        fun n => r (S (S n))).
Proof.
  intros H1 Hk Hl Hw. unfold iteration. rewrite H1.
  rewrite (bind_ok _ _ _ _ _ (bind_ok _ _ _ _ _ (choice_nth _ _ _ Hk))).
  cbn beta iota delta [lookup_pending ret]. rewrite Hl.
  rewrite (bind_ok _ _ (fun n => r (S n)) _ _ (choice_nth _ _ _ Hw)).
  reflexivity.
Qed.

Lemma iteration_held_step (d : Distribution) (st : WalkState) (r : Rng)
    (a b w : string) (ws : list string) :
  word1 st = Some a -> word2 st = Some b ->
  lookup (a, b) d = Some ws ->
  nth_error ws (r 0 mod List.length ws) = Some w ->
  iteration d st r
  = Ok (mkWalk (Some b) (Some w) (song st ++ [Some a]), false,
        fun n => r (S n)).
Proof.
  intros H1 H2 Hl Hw. unfold iteration. rewrite H1, H2.
  unfold bind at 1. cbn beta iota delta [lookup_pending ret]. rewrite Hl.
  rewrite (bind_ok _ _ _ _ _ (choice_nth _ _ _ Hw)). reflexivity.
Qed.

Lemma iteration_held_dead_end (d : Distribution) (st : WalkState) (r : Rng)
    (a b : string) :
  word1 st = Some a -> word2 st = Some b ->
  lookup (a, b) d = None ->
  iteration d st r
  = Ok (mkWalk None (Some b) ((song st ++ [Some a]) ++ [Some b]), true, r).
Proof.
  intros H1 H2 Hl. unfold iteration. rewrite H1, H2.
  unfold bind at 1. cbn beta iota delta [lookup_pending ret]. rewrite Hl.
  reflexivity.
Qed.

(** *** Failures *)

Lemma iterations_succ (word_count : Z) :
  (2 <= word_count)%Z -> exists n, iterations word_count = S n.
Proof.
  intros H. unfold iterations. exists (Z.to_nat (word_count - 2)). lia.
Qed.

(** With no key, the first iteration fails inside [random.choice]. *)
Lemma iteration_no_keys (d : Distribution) (r : Rng) :
  keys d = [] -> iteration d initial r = Err IndexError.
Proof.
  intros E. unfold iteration. cbn [initial word1]. rewrite E. reflexivity.
Qed.

Lemma chain_walk_no_keys (d : Distribution) (word_count : Z) (r : Rng) :
  keys d = [] -> (2 <= word_count)%Z ->
  chain_walk d word_count r = Err IndexError.
Proof.
  intros E H. destruct (iterations_succ _ H) as [n Hn].
  unfold chain_walk, chain_walk_counted. rewrite Hn.
  apply bind_err, bind_err. cbn [walk_loop].
  apply bind_err, iteration_no_keys, E.
Qed.

Lemma chain_walk_err (d : Distribution) (word_count : Z) (r : Rng) (e : exn) :
  chain_walk d word_count r = Err e -> e = IndexError.
Proof.
  unfold chain_walk, chain_walk_counted. intros H.
  apply bind_inv_err in H as [H|([s dead] & r1 & _ & H)]; [|discriminate].
  apply bind_inv_err in H as [H|([st dead] & r1 & _ & H)]; [|discriminate].
  exact (walk_loop_err _ _ _ _ _ _ H).
Qed.

Lemma finish_err (s : list (option string)) (r : Rng) (e : exn) :
  finish s r = Err e -> e = TypeError.
Proof.
  unfold finish. destruct (str_items s); [discriminate|].
  intros [= <-]. reflexivity.
Qed.

(** *** Emitted tokens *)

Lemma build_drawn_from (corpus : list string) :
  drawn_from corpus (build_distribution corpus).
Proof.
  split.
  - intros a b Hk. apply in_keys_lookup in Hk as [ws Hl].
    destruct (lookup_build_observed _ _ _ _ Hl) as [Hne E].
    destruct ws as [|c ws]; [congruence|].
    assert (Hc : In c (observed_successors (a, b) corpus))
      by (rewrite <- E; left; reflexivity).
    apply observed_in_song in Hc as (s & pre & post & Hin & Ht).
    split; exists s; (split; [exact Hin|]); rewrite Ht; apply in_or_app; right.
    + left. reflexivity.
    + right. left. reflexivity.
  - intros [a b] ws w Hl Hw.
    destruct (lookup_build_observed _ _ _ _ Hl) as [_ E]. rewrite E in Hw.
    apply observed_in_song in Hw as (s & pre & post & Hin & Ht).
    exists s. split; [exact Hin|]. rewrite Ht. apply in_or_app. right.
    right. right. left. reflexivity.
Qed.

Section Emitted.
Variable corpus : list string.
Variable d : Distribution.
Hypothesis Hd : drawn_from corpus d.

Lemma pending_tokens (st : WalkState) (r r1 : Rng) (w1 w2 : option string) :
  walk_inv corpus st ->
  pending d st r w1 w2 r1 ->
  token_of corpus w1 /\ token_of corpus w2.
Proof.
  intros [_ Hp] H. destruct H as [a b r1 _ Hc|Hne].
  - apply choice_ok_in in Hc. destruct (proj1 Hd a b Hc) as [Ha Hb].
    split; eexists; (split; [reflexivity|assumption]).
  - exact (Hp Hne).
Qed.

Lemma iteration_inv (st st' : WalkState) (r r' : Rng) (dead_end : bool) :
  walk_inv corpus st ->
  iteration d st r = Ok (st', dead_end, r') ->
  walk_inv corpus st' /\ token_of corpus (word2 st').
Proof.
  intros Hinv H. pose proof Hinv as [Hsong _].
  apply iteration_ok_inv in H as (w1 & w2 & r1 & Hp & Ho).
  destruct (pending_tokens _ _ _ _ _ Hinv Hp) as [T1 T2].
  destruct Ho as [ws w r' Hl Hc|Hl]; unfold walk_inv; cbn [word1 word2 song].
  - assert (Tw : token_of corpus (Some w)).
    { exists w. split; [reflexivity|].
      unfold lookup_pending in Hl. destruct w1, w2; try discriminate.
      exact (proj2 Hd _ _ _ Hl (choice_ok_in _ _ _ _ Hc)). }
    split; [split|exact Tw].
    + apply Forall_app. split; [exact Hsong|].
      constructor; [exact T1|constructor].
    + intros _. split; [exact T2|exact Tw].
  - split; [split|exact T2].
    + apply Forall_app. split; [apply Forall_app; split; [exact Hsong|]|];
        (constructor; [assumption|constructor]).
    + intros Hn. congruence.
Qed.

Lemma walk_loop_inv (n : nat) :
  forall st dead r st' dead' r',
    walk_inv corpus st ->
    (n = 0 -> token_of corpus (word2 st)) ->
    walk_loop d n st dead r = Ok (st', dead', r') ->
    walk_inv corpus st' /\ token_of corpus (word2 st').
Proof.
  induction n as [|n IH]; intros st dead r st' dead' r' Hinv H0 H.
  - injection H as <- _ _. split; [exact Hinv|apply H0; reflexivity].
  - cbn [walk_loop] in H. apply bind_inv_ok in H as ([st1 b] & r1 & Hi & Hw).
    destruct (iteration_inv _ _ _ _ _ Hinv Hi) as [Hinv1 T].
    exact (IH _ _ _ _ _ _ Hinv1 (fun _ => T) Hw).
Qed.

End Emitted.

Lemma initial_inv (corpus : list string) : walk_inv corpus initial.
Proof. split; [constructor|]. cbn [initial word1]. congruence. Qed.

Lemma str_items_tokens (corpus : list string) (l : list (option string)) :
  Forall (token_of corpus) l ->
  exists ws, str_items l = Some ws /\ l = map Some ws
             /\ Forall (corpus_token corpus) ws.
Proof.
  induction 1 as [|o l (w & -> & Hw) _ (ws & E & -> & Hws)].
  - exists []. repeat split. constructor.
  - exists (w :: ws). cbn [str_items]. rewrite E.
    repeat split. constructor; assumption.
Qed.

End WalkFacts.

Module WalkSpec.
Import PyStr Lyrics Dist DistFacts Walk WalkFacts.



(** C3, scenario B.  On [{(a,b): [c, d]}] with the sample forced to [c]
    and a count of 3, the second iteration hits the dead end [(b, c)]: it
    appends [c] and resets [word1] only, so [word2] still holds [c] when
    the loop ends and the final append emits [c] again: [[a, b, c, c]]. *)
Theorem scenario_B (a b c d' : string) (r : Rng) :
  (b, c) <> (a, b) ->
  r 1 mod 2 = 0 ->
  let dist := [((a, b), [c; d'])] in
  walk_loop dist (iterations 3) initial 0 r
  = Ok (mkWalk None (Some c) [Some a; Some b; Some c], 1, fun n => r (S (S n)))
  /\ chain_walk dist 3 r
     = Ok ([Some a; Some b; Some c; Some c], fun n => r (S (S n))).
Proof.
  intros Hbc Hr dist.
  assert (Hab : lookup (a, b) dist = Some [c; d']).
  { unfold dist. cbn [lookup]. key_cases. }
  assert (Hdead : lookup (b, c) dist = None).
  { unfold dist. cbn [lookup]. key_cases. }
  assert (H1 : iteration dist initial r
               = Ok (mkWalk (Some b) (Some c) [Some a], false,
                     fun n => r (S (S n)))).
  { apply (iteration_start_step dist initial r a b c [c; d']);
      [reflexivity| |exact Hab|].
    - cbn [dist keys map fst List.length]. rewrite Nat.mod_1_r. reflexivity.
    - cbn [List.length]. rewrite Hr. reflexivity. }
  assert (H2 : iteration dist (mkWalk (Some b) (Some c) [Some a])
                 (fun n => r (S (S n)))
               = Ok (mkWalk None (Some c) [Some a; Some b; Some c], true,
                     fun n => r (S (S n)))).
  { exact (iteration_held_dead_end dist (mkWalk (Some b) (Some c) [Some a])
             _ b c eq_refl eq_refl Hdead). }
  assert (Hw : walk_loop dist (iterations 3) initial 0 r
               = Ok (mkWalk None (Some c) [Some a; Some b; Some c], 1,
                     fun n => r (S (S n)))).
  { change (iterations 3) with 2.
    rewrite (walk_loop_succ _ _ _ _ _ _ _ _ H1).
    rewrite (walk_loop_succ _ _ _ _ _ _ _ _ H2). reflexivity. }
  split; [exact Hw|].
  unfold chain_walk, chain_walk_counted.
  rewrite (bind_ok _ _ _ _ _ (bind_ok _ _ _ _ _ Hw)). reflexivity.
Qed.

Lemma scenario_B_witness :
  build_distribution ["a b c"; "a b d"] = [(("a", "b"), ["c"; "d"])]
  /\ chain_walk (build_distribution ["a b c"; "a b d"]) 3 first_choice
     = Ok ([Some "a"; Some "b"; Some "c"; Some "c"], first_choice)
  /\ generate_song ["a b c"; "a b d"] 3 first_choice
     = Ok ("a b c c", first_choice).
Proof.
  split; [reflexivity|]. split; [|reflexivity].
  refine (proj2 (scenario_B "a" "b" "c" "d" first_choice _ _));
    [discriminate|reflexivity].
Defined.

(** C4, scenario A.  On [{(a,b): [c], (b,c): [d], (c,d): [e]}] with the
    start forced to [(a, b)] and a count of 4, the walk takes no dead end
    and yields [[a, b, c, e]]. *)
Theorem scenario_A (a b c d' e : string) (r : Rng) :
  let dist := [((a, b), [c]); ((b, c), [d']); ((c, d'), [e])] in
  NoDup (keys dist) ->
  r 0 mod 3 = 0 ->
  chain_walk_counted dist 4 r
  = Ok ([Some a; Some b; Some c; Some e], 0, fun n => r (S (S (S (S n)))))
  /\ chain_walk dist 4 r
     = Ok ([Some a; Some b; Some c; Some e], fun n => r (S (S (S (S n))))).
Proof.
  intros dist Hnd Hr.
  assert (Hne : (a, b) <> (b, c) /\ (a, b) <> (c, d') /\ (b, c) <> (c, d')).
  { unfold dist in Hnd. cbn [keys map fst] in Hnd.
    inversion Hnd as [|? ? Hn1 Hnd']; subst.
    inversion Hnd' as [|? ? Hn2 _]; subst.
    repeat split; intros E.
    - apply Hn1. left. symmetry. exact E.
    - apply Hn1. right. left. symmetry. exact E.
    - apply Hn2. left. symmetry. exact E. }
  destruct Hne as (N1 & N2 & N3).
  assert (Lab : lookup (a, b) dist = Some [c]).
  { unfold dist. cbn [lookup]. key_cases. }
  assert (Lbc : lookup (b, c) dist = Some [d']).
  { unfold dist. cbn [lookup]. key_cases. }
  assert (Lcd : lookup (c, d') dist = Some [e]).
  { unfold dist. cbn [lookup]. key_cases. }
  assert (H1 : iteration dist initial r
               = Ok (mkWalk (Some b) (Some c) [Some a], false,
                     fun n => r (S (S n)))).
  { apply (iteration_start_step dist initial r a b c [c]);
      [reflexivity| |exact Lab|].
    - cbn [dist keys map fst List.length]. rewrite Hr. reflexivity.
    - cbn [List.length]. rewrite Nat.mod_1_r. reflexivity. }
  assert (H2 : iteration dist (mkWalk (Some b) (Some c) [Some a])
                 (fun n => r (S (S n)))
               = Ok (mkWalk (Some c) (Some d') [Some a; Some b], false,
                     fun n => r (S (S (S n))))).
  { refine (iteration_held_step dist (mkWalk (Some b) (Some c) [Some a])
              _ b c d' [d'] eq_refl eq_refl Lbc _).
    cbn [List.length]. rewrite Nat.mod_1_r. reflexivity. }
  assert (H3 : iteration dist (mkWalk (Some c) (Some d') [Some a; Some b])
                 (fun n => r (S (S (S n))))
               = Ok (mkWalk (Some d') (Some e) [Some a; Some b; Some c], false,
                     fun n => r (S (S (S (S n)))))).
  { refine (iteration_held_step dist
              (mkWalk (Some c) (Some d') [Some a; Some b])
              _ c d' e [e] eq_refl eq_refl Lcd _).
    cbn [List.length]. rewrite Nat.mod_1_r. reflexivity. }
  assert (Hw : walk_loop dist (iterations 4) initial 0 r
               = Ok (mkWalk (Some d') (Some e) [Some a; Some b; Some c], 0,
                     fun n => r (S (S (S (S n)))))).
  { change (iterations 4) with 3.
    rewrite (walk_loop_succ _ _ _ _ _ _ _ _ H1).
    rewrite (walk_loop_succ _ _ _ _ _ _ _ _ H2).
    rewrite (walk_loop_succ _ _ _ _ _ _ _ _ H3). reflexivity. }
  assert (Hc : chain_walk_counted dist 4 r
               = Ok ([Some a; Some b; Some c; Some e], 0,
                     fun n => r (S (S (S (S n)))))).
  { unfold chain_walk_counted. rewrite (bind_ok _ _ _ _ _ Hw). reflexivity. }
  split; [exact Hc|].
  unfold chain_walk. rewrite (bind_ok _ _ _ _ _ Hc). reflexivity.
Qed.

Lemma scenario_A_witness :
  tokens "a b c d e" = ["a"; "b"; "c"; "d"; "e"]
  /\ build_distribution ["a b c d e"]
     = [(("a", "b"), ["c"]); (("b", "c"), ["d"]); (("c", "d"), ["e"])]
  /\ chain_walk (build_distribution ["a b c d e"]) 4 first_choice
     = Ok ([Some "a"; Some "b"; Some "c"; Some "e"], first_choice).
Proof.
  split; [reflexivity|]. split; [reflexivity|].
  refine (proj2 (scenario_A "a" "b" "c" "d" "e" first_choice _ _));
    [|reflexivity].
  repeat constructor; simpl; intuition discriminate.
Defined.

(** C9.  With [word_count = 1] the loop body never runs: the state after
    the loop is the initial one, the final append emits the [None] that
    [word2] still holds, and the join fails with [TypeError], whatever
    the corpus. *)
Theorem word_count_one_type_error (corpus : list string) (r : Rng) :
  walk_loop (build_distribution corpus) (iterations 1) initial 0 r
  = Ok (initial, 0, r)
  /\ chain_walk (build_distribution corpus) 1 r = Ok ([None], r)
  /\ generate_song corpus 1 r = Err TypeError.
Proof. repeat split. Qed.

(** C1, as stated, fails.  The corpus [["a b"; ""]] builds a distribution
    without keys; [generate_song] with a count of 2 then fails with
    [IndexError], not with [GenerationError], and the failure is that of
    the first iteration of the loop.  Nothing rejects the empty
    distribution before the loop: with a count of 1 the loop is not
    entered and the walk over the same distribution completes. *)
Lemma empty_distribution_index_error :
  keys (build_distribution ["a b"; ""]) = []
  /\ generate_song ["a b"; ""] 2 first_choice = Err IndexError
  /\ generate_song ["a b"; ""] 2 first_choice <> Err GenerationError
  /\ iteration (build_distribution ["a b"; ""]) initial first_choice
     = Err IndexError
  /\ chain_walk (build_distribution ["a b"; ""]) 1 first_choice
     = Ok ([None], first_choice).
Proof.
  split; [reflexivity|]. split; [reflexivity|].
  split; [discriminate|]. split; reflexivity.
Qed.

(** C1, amended.  The built distribution has no keys exactly when every
    song of the corpus splits into fewer than 3 tokens (an empty corpus
    included).  Then, for a count of at least 2, [generate_song] fails
    with [IndexError]: [random.choice] raises it on the empty key list in
    the first iteration of the main loop.  No call of [generate_song]
    fails with an error other than [IndexError] or [TypeError]. *)
Theorem empty_distribution_fails (corpus : list string) (word_count : Z) (r : Rng) :
  (keys (build_distribution corpus) = []
   <-> Forall (fun s => List.length (tokens s) < 3) corpus)
  /\ (keys (build_distribution corpus) = [] -> (2 <= word_count)%Z ->
      iteration (build_distribution corpus) initial r = Err IndexError
      /\ generate_song corpus word_count r = Err IndexError)
  /\ (forall e, generate_song corpus word_count r = Err e ->
                e = IndexError \/ e = TypeError).
Proof.
  split; [|split].
  - split.
    + intros E. apply Forall_forall. intros s Hin.
      destruct (Nat.lt_ge_cases (List.length (tokens s)) 3) as [Hs|Hl];
        [exact Hs|exfalso].
      apply (long_song_builds_key corpus s Hin Hl).
      unfold keys in E. apply map_eq_nil in E. exact E.
    + intros H. rewrite (build_all_short corpus H). reflexivity.
  - intros E Hwc. split; [apply iteration_no_keys, E|].
    unfold generate_song. apply bind_err, chain_walk_no_keys; assumption.
  - intros e H. unfold generate_song in H.
    apply bind_inv_err in H as [H|(s & r1 & _ & H)].
    + left. exact (chain_walk_err _ _ _ _ H).
    + right. exact (finish_err _ _ _ H).
Qed.

Lemma empty_distribution_fails_witness :
  keys (build_distribution ["a b"; ""]) = []
  /\ generate_song ["a b"; ""] 7 first_choice = Err IndexError.
Proof.
  assert (E : keys (build_distribution ["a b"; ""]) = []) by reflexivity.
  split; [exact E|].
  refine (proj2 (proj1 (proj2
            (empty_distribution_fails ["a b"; ""] 7 first_choice)) E _)).
  lia.
Defined.

(** C10.  When [generate_song] completes for a count of at least 2, every
    item of the sequence the walk produced is a [str] that occurs in the
    space-split token sequence of some song of the corpus, and the text
    returned is the decoding of that sequence. *)
Theorem emitted_tokens_from_corpus
    (corpus : list string) (word_count : Z) (r r' : Rng) (text : string) :
  (2 <= word_count)%Z ->
  generate_song corpus word_count r = Ok (text, r') ->
  exists ws,
    chain_walk (build_distribution corpus) word_count r = Ok (map Some ws, r')
    /\ Forall (corpus_token corpus) ws
    /\ text = Decode ws.
Proof.
  intros Hwc H. unfold generate_song in H.
  apply bind_inv_ok in H as (s & r1 & Hs & Hf).
  pose proof Hs as Hs'. unfold chain_walk, chain_walk_counted in Hs'.
  apply bind_inv_ok in Hs' as ([s0 dead] & r2 & Hc & Hr).
  injection Hr as <- <-.
  apply bind_inv_ok in Hc as ([st dead0] & r3 & Hw & Hr).
  injection Hr as <- <- <-.
  destruct (iterations_succ _ Hwc) as [n Hn]. rewrite Hn in Hw.
  destruct (walk_loop_inv corpus _ (build_drawn_from corpus) (S n)
              _ _ _ _ _ _ (initial_inv corpus)
              (fun E => match Nat.neq_succ_0 n E with end) Hw)
    as [[Hsong _] T].
  assert (Hall : Forall (token_of corpus) (song st ++ [word2 st])).
  { apply Forall_app. split; [exact Hsong|]. constructor; [exact T|constructor]. }
  destruct (str_items_tokens corpus _ Hall) as (ws & Ei & Em & Hws).
  exists ws. unfold finish in Hf. rewrite Ei in Hf. injection Hf as <- <-.
  split; [rewrite <- Em; exact Hs|]. split; [exact Hws|reflexivity].
Qed.

Lemma emitted_tokens_from_corpus_witness :
  exists ws,
    chain_walk (build_distribution ["a b c"; "a b d"]) 3 first_choice
    = Ok (map Some ws, first_choice)
    /\ Forall (corpus_token ["a b c"; "a b d"]) ws
    /\ "a b c c" = Decode ws.
Proof.
  apply (emitted_tokens_from_corpus ["a b c"; "a b d"] 3 first_choice);
    [lia|reflexivity].
Defined.

End WalkSpec.

(** * Further properties of the code *)

(** ** The encoded lyrics *)

Module EncodingProps.
Import PyStr Lyrics Dist Corpus PyStrFacts LyricsFacts DistFacts.

Lemma breaks_spaced_clean_app (x y : string) :
  mem_char nl x = false -> breaks_spaced (x ++ y) = breaks_spaced y.
Proof.
  induction x as [|c x IH]; intros H; [reflexivity|].
  cbn [mem_char] in H. apply orb_false_iff in H as [Hc Hx].
  change ((String c x ++ y)%string) with (String c (x ++ y)).
  cbn [breaks_spaced]. rewrite Hc. exact (IH Hx).
Qed.

Lemma breaks_spaced_clean (x : string) :
  mem_char nl x = false -> breaks_spaced x = true.
Proof.
  intros H. rewrite <- (append_empty_r x).
  rewrite (breaks_spaced_clean_app x EmptyString H). reflexivity.
Qed.

Lemma join_breaks_spaced (lines : list string) :
  Forall (fun w => mem_char nl w = false) lines ->
  breaks_spaced (join NL_SP lines) = true.
Proof.
  induction lines as [|x rest IH]; intros H; [reflexivity|].
  inversion H as [|? ? Hx Hrest]; subst.
  destruct rest as [|y rest'].
  - cbn [join]. exact (breaks_spaced_clean x Hx).
  - change (join NL_SP (x :: y :: rest'))
      with ((x ++ NL_SP ++ join NL_SP (y :: rest'))%string).
    rewrite (breaks_spaced_clean_app _ _ Hx).
    exact (IH Hrest).
Qed.

Lemma split_break_only_last (s : string) :
  breaks_spaced s = true ->
  Forall (fun tok => break_only_last tok = true) (split sp s).
Proof.
  induction s as [|c s IH]; intros H.
  - constructor; [reflexivity|constructor].
  - cbn [breaks_spaced] in H. apply andb_true_iff in H as [Hc Hs].
    specialize (IH Hs). cbn [split].
    destruct (Ascii.eqb c sp) eqn:Esp.
    + constructor; [reflexivity|exact IH].
    + pose proof (split_nonempty sp s) as Hne.
      destruct (split sp s) as [|w ws] eqn:Es; [contradiction|].
      inversion IH as [|? ? Hw Hws]; subst.
      constructor; [|exact Hws].
      cbn [break_only_last]. destruct (Ascii.eqb c nl) eqn:Enl; [|exact Hw].
      destruct s as [|c' s']; [discriminate|].
      cbn [split] in Es. rewrite Hc in Es. injection Es as <- _. reflexivity.
Qed.

Lemma tokenize_break_only_last (text : string) :
  Forall (fun tok => break_only_last tok = true) (Tokenize text).
Proof.
  unfold Tokenize, tokens. apply split_break_only_last.
  change (encode_lyrics text) with (join NL_SP (kept_lines text)).
  apply join_breaks_spaced, kept_lines_no_break.
Qed.

(** X1.  In the token sequence of an encoded lyric text no token contains
    a space, and a line break occurs in a token only as its last
    character. *)
Theorem tokens_carry_breaks_last (text : string) :
  Forall (fun tok => mem_char sp tok = false /\ break_only_last tok = true)
         (Tokenize text).
Proof.
  pose proof (split_no_sep sp (encode_lyrics text)) as H1.
  pose proof (tokenize_break_only_last text) as H2.
  unfold Tokenize, tokens in *.
  rewrite Forall_forall in *. intros tok Hin. split; auto.
Qed.

Lemma drop_last4_short (lines : list string) :
  List.length lines <= 4 -> drop_last4 lines = [].
Proof.
  intros H. unfold drop_last4.
  replace (List.length lines - 4) with 0 by lia. reflexivity.
Qed.

(** X2.  A text whose last line is the licence sentinel loses its last
    four physical lines: decoding its token sequence gives the remaining
    lines joined by line breaks.  With at most four physical lines the
    encoded text is empty and adds nothing to a distribution. *)
Theorem licence_block_stripped (text : string) :
  last_line (split nl text) = licence_sentinel ->
  encode_lyrics text = join NL_SP (drop_last4 (physical_lines text))
  /\ Decode (Tokenize text) = join NL (drop_last4 (physical_lines text))
  /\ (List.length (physical_lines text) <= 4 ->
      encode_lyrics text = EmptyString
      /\ forall d, add_song d (encode_lyrics text) = d).
Proof.
  intros H.
  assert (K : kept_lines text = drop_last4 (physical_lines text)).
  { unfold kept_lines. rewrite last_line_collapse, H.
    rewrite String.eqb_refl. reflexivity. }
  assert (E : encode_lyrics text = join NL_SP (drop_last4 (physical_lines text))).
  { change (encode_lyrics text) with (join NL_SP (kept_lines text)).
    rewrite K. reflexivity. }
  split; [exact E|]. split.
  - rewrite decode_tokenize_kept, K. reflexivity.
  - intros Hl. rewrite E, (drop_last4_short _ Hl). split; [reflexivity|].
    intros d. apply add_song_short. cbn. lia.
Qed.

Lemma licence_block_stripped_witness :
  Decode (Tokenize (join NL ["la la"; "la"; "x"; "y"; "z"; "(1409616144139)"]))
  = join NL ["la la"; "la"].
Proof.
  refine (proj1 (proj2 (licence_block_stripped
            (join NL ["la la"; "la"; "x"; "y"; "z"; "(1409616144139)"]) _))).
  reflexivity.
Defined.

End EncodingProps.

(** ** More on the distribution builder *)

Module DistributionProps.
Import PyStr Lyrics Dist Corpus DistFacts.

Lemma followers_skip (key : PairKey) (x c : string) (rest : list string) :
  In c (followers key rest) -> In c (followers key (x :: rest)).
Proof.
  destruct rest as [|y [|z r]]; try (intros []).
  intros H. rewrite (followers_step key x y z r). apply in_or_app. right. exact H.
Qed.

Lemma followers_complete (a b c : string) (pre post : list string) :
  In c (followers (a, b) (pre ++ a :: b :: c :: post)).
Proof.
  induction pre as [|x pre IH]; [apply followers_first|].
  apply followers_skip, IH.
Qed.

(** X3.  Whenever a song of the corpus has the tokens [a], [b], [c] in a
    row, [(a, b)] is a key of the built distribution and [c] is among
    its successors. *)
Theorem observed_triple_recorded
    (corpus : list string) (song : string) (a b c : string)
    (pre post : list string) :
  In song corpus ->
  tokens song = pre ++ a :: b :: c :: post ->
  In (a, b) (keys (build_distribution corpus))
  /\ exists ws, lookup (a, b) (build_distribution corpus) = Some ws /\ In c ws.
Proof.
  intros Hin Ht.
  assert (Hc : In c (successors (a, b) (build_distribution corpus))).
  { rewrite successors_build. unfold observed_successors.
    apply in_flat_map. exists song. split; [exact Hin|].
    rewrite Ht. apply followers_complete. }
  unfold successors in Hc.
  destruct (lookup (a, b) (build_distribution corpus)) as [ws|] eqn:El;
    [|destruct Hc].
  split; [apply in_keys_lookup; exists ws; exact El|].
  exists ws. split; [reflexivity|exact Hc].
Qed.

Lemma observed_triple_recorded_witness :
  In ("c", "d") (keys (build_distribution ["x y z"; "a b c d e"]))
  /\ exists ws, lookup ("c", "d") (build_distribution ["x y z"; "a b c d e"])
                = Some ws /\ In "e" ws.
Proof.
  apply (observed_triple_recorded ["x y z"; "a b c d e"] "a b c d e"
           "c" "d" "e" ["a"; "b"] []).
  - simpl. right. left. reflexivity.
  - reflexivity.
Defined.

(** X4.  Building from two corpora put end to end appends, for every
    pair, the successors of the second corpus after those of the first. *)
Theorem build_distribution_app (c1 c2 : list string) (key : PairKey) :
  successors key (build_distribution (c1 ++ c2))
  = successors key (build_distribution c1)
    ++ successors key (build_distribution c2).
Proof.
  rewrite !successors_build. unfold observed_successors.
  apply flat_map_app.
Qed.

Lemma total_cons (k : PairKey) (ws : list string) (d : Distribution) :
  total_successors ((k, ws) :: d) = List.length ws + total_successors d.
Proof. reflexivity. Qed.

Lemma total_add_successor (k : PairKey) (w : string) (d : Distribution) :
  total_successors (add_successor k w d) = S (total_successors d).
Proof.
  induction d as [|[k0 ws0] d IH]; [reflexivity|].
  cbn [add_successor]. destruct (key_eq_dec k0 k); rewrite !total_cons.
  - rewrite length_app. simpl. lia.
  - rewrite IH. lia.
Qed.

Lemma total_scan_song (rest : list string) :
  forall d p1 p2,
    total_successors (scan_song d p1 p2 rest)
    = total_successors d + List.length rest.
Proof.
  induction rest as [|w rest IH]; intros d p1 p2; cbn [scan_song List.length].
  - lia.
  - rewrite IH, total_add_successor. lia.
Qed.

Lemma total_add_song (d : Distribution) (s : string) :
  total_successors (add_song d s)
  = total_successors d + (List.length (tokens s) - 2).
Proof.
  destruct (Nat.lt_ge_cases (List.length (tokens s)) 3) as [Hs|Hl].
  - rewrite (add_song_short _ _ Hs). lia.
  - destruct (add_song_long d s Hl) as (p1 & p2 & w & rest & E & ->).
    rewrite total_scan_song, E. simpl. lia.
Qed.

(** X5.  The dict stores one successor for every token that has two
    predecessors in its song: the total length of the successor sequences
    is the sum, over the songs, of the token count minus 2 (nothing for a
    song of fewer than 3 tokens). *)
Theorem every_position_recorded_once (corpus : list string) :
  total_successors (build_distribution corpus) = third_and_later corpus.
Proof.
  unfold build_distribution, third_and_later.
  assert (G : forall d,
             total_successors (fold_left add_song corpus d)
             = total_successors d
               + list_sum (map (fun s => List.length (tokens s) - 2) corpus)).
  { induction corpus as [|s corpus IH]; intros d; cbn [fold_left map].
    - change (list_sum []) with 0. lia.
    - rewrite IH, total_add_song.
      change (list_sum (?x :: ?l)) with (x + list_sum l). lia. }
  rewrite G. reflexivity.
Qed.

(** X6.  [word_pairs], the list a restart is drawn from, holds every pair
    once, however often the pair occurs in the corpus. *)
Theorem word_pairs_distinct (corpus : list string) :
  NoDup (keys (build_distribution corpus)).
Proof. apply build_nodup. Qed.

End DistributionProps.

(** ** More on the chain walk *)

Module WalkProps.
Import PyStr Lyrics Dist DistFacts Walk WalkFacts.

Lemma generate_song_no_loop (corpus : list string) (word_count : Z) (r : Rng) :
  iterations word_count = 0 ->
  generate_song corpus word_count r = Err TypeError.
Proof.
  intros H. unfold generate_song, chain_walk, chain_walk_counted.
  rewrite H. reflexivity.
Qed.

(** X7.  For every corpus and every [word_count] of at most 1 (zero and
    negative counts included) the loop does not run and [generate_song]
    fails with [TypeError]. *)
Theorem small_word_count_type_error
    (corpus : list string) (word_count : Z) (r : Rng) :
  (word_count <= 1)%Z ->
  generate_song corpus word_count r = Err TypeError.
Proof.
  intros H. apply generate_song_no_loop.
  unfold iterations. lia.
Qed.

Lemma small_word_count_type_error_witness :
  generate_song ["a b c d e"] (-3) first_choice = Err TypeError.
Proof. apply small_word_count_type_error. lia. Defined.

(** What one iteration does to [word1]. *)
Lemma iteration_word1 (d : Distribution) (st st' : WalkState)
    (r r' : Rng) (dead_end : bool) :
  iteration d st r = Ok (st', dead_end, r') ->
  (word1 st = None -> dead_end = false)
  /\ (dead_end = false -> word1 st' <> None)
  /\ (dead_end = true -> word1 st' = None).
Proof.
  intros H. apply iteration_ok_inv in H as (w1 & w2 & r1 & Hp & Ho).
  destruct Ho as [ws w r' Hl Hc|Hl]; cbn [word1].
  - split; [reflexivity|]. split; [|discriminate].
    intros _. unfold lookup_pending in Hl.
    destruct w1, w2; discriminate.
  - split; [|split; [discriminate|reflexivity]].
    intros Hnone. exfalso.
    destruct Hp as [a b r1 _ Hc|Hne]; [|contradiction].
    apply choice_ok_in, in_keys_lookup in Hc as [ws Hws].
    cbn [lookup_pending] in Hl. congruence.
Qed.

(** X8.  One iteration, when it does not fail: either it samples a
    successor [w] from the sequence recorded for the pair [(a, b)] it
    emits from, and the pending pair becomes [(b, w)]; or it is a dead
    end, which happens only with a held pair that is no key (never right
    after drawing a start), consumes no random draw and leaves [word2]
    as it was. *)
Theorem iteration_cases (d : Distribution) (st st' : WalkState)
    (r r' : Rng) (dead_end : bool) :
  iteration d st r = Ok (st', dead_end, r') ->
  (dead_end = false ->
   exists a b ws w,
     lookup (a, b) d = Some ws /\ In w ws
     /\ st' = mkWalk (Some b) (Some w) (song st ++ [Some a]))
  /\ (dead_end = true ->
      word1 st <> None
      /\ lookup_pending d (word1 st) (word2 st) = None
      /\ st' = mkWalk None (word2 st) ((song st ++ [word1 st]) ++ [word2 st])
      /\ r' = r).
Proof.
  intros H. pose proof (iteration_word1 _ _ _ _ _ _ H) as (Hstart & _ & _).
  apply iteration_ok_inv in H as (w1 & w2 & r1 & Hp & Ho).
  destruct Ho as [ws w r' Hl Hc|Hl].
  - split; [intros _|discriminate].
    unfold lookup_pending in Hl.
    destruct w1 as [a|], w2 as [b|]; try discriminate.
    exists a, b, ws, w. split; [exact Hl|].
    split; [exact (choice_ok_in _ _ _ _ Hc)|reflexivity].
  - split; [discriminate|intros _].
    destruct Hp as [a b r1 Hnone _|Hne].
    + specialize (Hstart Hnone). discriminate.
    + repeat split; assumption.
Qed.

Lemma iteration_cases_witness :
  exists a b ws w,
    lookup (a, b) (build_distribution ["a b c"; "a b d"]) = Some ws
    /\ In w ws
    /\ mkWalk (Some "b") (Some "c") [Some "a"]
       = mkWalk (Some b) (Some w) (song initial ++ [Some a]).
Proof.
  refine (proj1 (iteration_cases (build_distribution ["a b c"; "a b d"])
                   initial (mkWalk (Some "b") (Some "c") [Some "a"])
                   first_choice first_choice false _) _);
    reflexivity.
Defined.

Lemma walk_loop_length (d : Distribution) (n : nat) :
  forall st dead r st' dead' r',
    walk_loop d n st dead r = Ok (st', dead', r') ->
    List.length (song st') + dead = List.length (song st) + n + dead'.
Proof.
  induction n as [|n IH]; intros st dead r st' dead' r' H.
  - injection H as <- <- _. lia.
  - cbn [walk_loop] in H. apply bind_inv_ok in H as ([st1 b] & r1 & Hi & Hw).
    pose proof (iteration_length _ _ _ _ _ _ Hi) as Hl.
    pose proof (IH _ _ _ _ _ _ Hw) as Hn.
    destruct b; lia.
Qed.

(** Dead ends are never adjacent, and the first iteration after a start
    is none. *)
Lemma walk_loop_dead_ends (d : Distribution) (n : nat) :
  forall st dead r st' dead' r',
    walk_loop d n st dead r = Ok (st', dead', r') ->
    dead <= dead'
    /\ 2 * (dead' - dead) <= n + 1
    /\ (word1 st = None -> 2 * (dead' - dead) <= n).
Proof.
  induction n as [|n IH]; intros st dead r st' dead' r' H.
  - injection H as _ <- _. lia.
  - cbn [walk_loop] in H. apply bind_inv_ok in H as ([st1 b] & r1 & Hi & Hw).
    destruct (iteration_word1 _ _ _ _ _ _ Hi) as (Hstart & Hstep & Hdead).
    destruct (IH _ _ _ _ _ _ Hw) as (Hle & Hheld & Hnone).
    destruct b.
    + specialize (Hnone (Hdead eq_refl)).
      split; [lia|]. split; [lia|].
      intros Hn. specialize (Hstart Hn). discriminate.
    + split; [lia|]. split; lia.
Qed.

(** X9.  Whatever the distribution, when the walk completes for a count
    of at least 1, at most every other iteration was a dead end: twice
    the number of dead ends is at most [word_count - 1], so the length of
    the output lies between [word_count] and
    [word_count + (word_count - 1) / 2]. *)
Theorem dead_ends_bounded
    (d : Distribution) (word_count : Z) (r r' : Rng)
    (s : list (option string)) (dead : nat) :
  (1 <= word_count)%Z ->
  chain_walk_counted d word_count r = Ok (s, dead, r') ->
  (2 * Z.of_nat dead <= word_count - 1)%Z
  /\ (word_count <= Z.of_nat (List.length s)
      <= word_count + (word_count - 1) / 2)%Z.
Proof.
  intros Hwc H. unfold chain_walk_counted in H.
  apply bind_inv_ok in H as ([st dead0] & r1 & Hw & Hr).
  injection Hr as <- <- <-.
  pose proof (walk_loop_length _ _ _ _ _ _ _ _ Hw) as Hlen.
  destruct (walk_loop_dead_ends _ _ _ _ _ _ _ _ Hw) as (_ & _ & Hb).
  specialize (Hb eq_refl). cbn [initial song List.length] in Hlen.
  unfold iterations in *. rewrite length_app. cbn [List.length].
  assert (Hd : (2 * Z.of_nat dead0 <= word_count - 1)%Z) by lia.
  split; [exact Hd|]. split; [lia|].
  assert (Z.of_nat dead0 <= (word_count - 1) / 2)%Z
    by (apply Z.div_le_lower_bound; lia).
  lia.
Qed.

Lemma dead_ends_bounded_witness :
  (2 * Z.of_nat 1 <= 3 - 1)%Z
  /\ (3 <= Z.of_nat (List.length [Some "a"; Some "b"; Some "c"; Some "c"])
      <= 3 + (3 - 1) / 2)%Z.
Proof.
  refine (dead_ends_bounded (build_distribution ["a b c"; "a b d"]) 3
            first_choice first_choice _ 1 _ _); [lia|reflexivity].
Defined.

Lemma generate_song_all_short (corpus : list string) (word_count : Z) (r : Rng) :
  (2 <= word_count)%Z ->
  Forall (fun s => List.length (tokens s) < 3) corpus ->
  generate_song corpus word_count r = Err IndexError.
Proof.
  intros Hwc Hall. unfold generate_song.
  apply bind_err, chain_walk_no_keys; [|exact Hwc].
  rewrite (build_all_short corpus Hall). reflexivity.
Qed.

Lemma generate_song_some_long (corpus : list string) (word_count : Z) (r : Rng) :
  (2 <= word_count)%Z ->
  Exists (fun s => 3 <= List.length (tokens s)) corpus ->
  exists text r', generate_song corpus word_count r = Ok (text, r').
Proof.
  intros Hwc Hex. apply Exists_exists in Hex as (s & Hin & Hl).
  pose proof (long_song_builds_key corpus s Hin Hl) as Hne.
  assert (Hk : keys (build_distribution corpus) <> []).
  { unfold keys. intros E. apply map_eq_nil in E. exact (Hne E). }
  destruct (walk_loop_total _ (iterations word_count) Hk
              (build_nonempty_successors corpus) initial 0 r)
    as (st & dead & r' & Hw & _).
  destruct (iterations_succ _ Hwc) as [n Hn].
  assert (Hinv : walk_inv corpus st /\ token_of corpus (word2 st)).
  { rewrite Hn in Hw.
    exact (walk_loop_inv corpus _ (build_drawn_from corpus) (S n)
             _ _ _ _ _ _ (initial_inv corpus)
             (fun E => match Nat.neq_succ_0 n E with end) Hw). }
  destruct Hinv as [[Hsong _] T].
  assert (Hall : Forall (token_of corpus) (song st ++ [word2 st])).
  { apply Forall_app. split; [exact Hsong|].
    constructor; [exact T|constructor]. }
  destruct (str_items_tokens corpus _ Hall) as (ws & Ei & _ & _).
  exists (Decode ws), r'.
  assert (Hc : chain_walk_counted (build_distribution corpus) word_count r
               = Ok (song st ++ [word2 st], dead, r')).
  { unfold chain_walk_counted. rewrite (bind_ok _ _ _ _ _ Hw). reflexivity. }
  assert (Hs : chain_walk (build_distribution corpus) word_count r
               = Ok (song st ++ [word2 st], r')).
  { unfold chain_walk. rewrite (bind_ok _ _ _ _ _ Hc). reflexivity. }
  unfold generate_song. rewrite (bind_ok _ _ _ _ _ Hs).
  unfold finish. rewrite Ei. reflexivity.
Qed.

Lemma generate_song_tokens
    (corpus : list string) (word_count : Z) (r r' : Rng) (text : string) :
  (2 <= word_count)%Z ->
  generate_song corpus word_count r = Ok (text, r') ->
  exists ws, Forall (corpus_token corpus) ws /\ text = Decode ws.
Proof.
  intros Hwc H. unfold generate_song in H.
  apply bind_inv_ok in H as (s & r1 & Hs & Hf).
  unfold chain_walk, chain_walk_counted in Hs.
  apply bind_inv_ok in Hs as ([s0 dead] & r2 & Hc & Hr).
  injection Hr as <- <-.
  apply bind_inv_ok in Hc as ([st dead0] & r3 & Hw & Hr).
  injection Hr as <- <- <-.
  destruct (iterations_succ _ Hwc) as [n Hn]. rewrite Hn in Hw.
  destruct (walk_loop_inv corpus _ (build_drawn_from corpus) (S n)
              _ _ _ _ _ _ (initial_inv corpus)
              (fun E => match Nat.neq_succ_0 n E with end) Hw)
    as [[Hsong _] T].
  assert (Hall : Forall (token_of corpus) (song st ++ [word2 st])).
  { apply Forall_app. split; [exact Hsong|]. constructor; [exact T|constructor]. }
  destruct (str_items_tokens corpus _ Hall) as (ws & Ei & _ & Hws).
  exists ws. unfold finish in Hf. rewrite Ei in Hf. injection Hf as <- _.
  split; [exact Hws|reflexivity].
Qed.

Lemma short_or_long (corpus : list string) :
  Forall (fun s => List.length (tokens s) < 3) corpus
  \/ Exists (fun s => 3 <= List.length (tokens s)) corpus.
Proof.
  destruct (Forall_Exists_dec (fun s => List.length (tokens s) < 3)
              (fun s => lt_dec (List.length (tokens s)) 3) corpus)
    as [Hall|Hex]; [left; exact Hall|right].
  revert Hex. apply Exists_impl. intros s Hs. lia.
Qed.

(** X10.  For a count of at least 2, [generate_song] returns a text
    exactly when some song of the corpus splits into at least 3 tokens,
    whatever the random draws. *)
Theorem generate_song_succeeds_iff
    (corpus : list string) (word_count : Z) (r : Rng) :
  (2 <= word_count)%Z ->
  (exists text r', generate_song corpus word_count r = Ok (text, r'))
  <-> Exists (fun s => 3 <= List.length (tokens s)) corpus.
Proof.
  intros Hwc. split.
  - intros (text & r' & H).
    destruct (short_or_long corpus) as [Hall|Hex]; [|exact Hex].
    rewrite (generate_song_all_short corpus word_count r Hwc Hall) in H.
    discriminate.
  - apply generate_song_some_long, Hwc.
Qed.

Lemma generate_song_succeeds_iff_witness :
  (exists text r',
      generate_song ["x y"; "a b c"] 2 first_choice = Ok (text, r'))
  <-> Exists (fun s => 3 <= List.length (tokens s)) ["x y"; "a b c"].
Proof. apply generate_song_succeeds_iff. lia. Defined.

End WalkProps.

(** ** The command line and [main] *)

Module CliProps.
Import PyStr Lyrics Dist Walk Corpus Cli WalkProps.

Section WithExternals.
Variable int : string -> option Z.
Variable getopt : list string -> getopt_result.
Variable retrieve : string -> string -> Z -> retrieval.

Lemma last_arg_snoc (p : string * string -> bool)
    (opts : list (string * string)) (oa : string * string) :
  last_arg p (opts ++ [oa])
  = if p oa then Some (snd oa) else last_arg p opts.
Proof.
  unfold last_arg. rewrite rev_unit. cbn [find].
  destruct (p oa); reflexivity.
Qed.

Lemma last_int_snoc (short long : string)
    (opts : list (string * string)) (oa : string * string) :
  last_int int short long (opts ++ [oa])
  = if is_opt short long oa
    then match int (snd oa) with
         | Some n => Some n
         | None => last_int int short long opts
         end
    else last_int int short long opts.
Proof.
  unfold last_int. rewrite rev_unit. cbn [find].
  destruct (is_opt short long oa); [|reflexivity].
  destruct (int (snd oa)) eqn:E; cbn [andb]; [exact E|reflexivity].
Qed.

(** The dict after the loop over [opts], before the clamp. *)
Lemma fold_set_option (opts : list (string * string)) :
  let result := fold_left (set_option int) opts defaults in
  api_key result = last_arg (is_opt "-k" "--apikey") opts
  /\ artist result = last_arg (is_opt "-a" "--artist") opts
  /\ help result = existsb (is_opt "-h" "--help") opts
  /\ word_count result
     = match last_int int "-w" "--wordcount" opts with
       | Some n => n
       | None => 50%Z
       end
  /\ sample_size result
     = match last_int int "-s" "--samplesize" opts with
       | Some n => n
       | None => 25%Z
       end.
Proof.
  induction opts as [|[opt arg] opts IH] using rev_ind.
  - repeat split.
  - cbn zeta in *. rewrite fold_left_app. cbn [fold_left].
    rewrite !last_arg_snoc, !last_int_snoc, existsb_app.
    destruct IH as (Ik & Ia & Ih & Iw & Is).
    rewrite <- Ik, <- Ia, <- Ih. cbn [existsb].
    destruct (last_int int "-w" "--wordcount" opts) as [w|];
      destruct (last_int int "-s" "--samplesize" opts) as [n|];
      generalize dependent (fold_left (set_option int) opts defaults);
      intros result Ik Ia Ih Iw Is;
      unfold set_option, is_opt; cbn [fst snd];
      repeat match goal with
             | |- context [String.eqb opt ?l] =>
                 destruct (String.eqb_spec opt l); [subst opt|]
             end;
      cbn [orb andb String.eqb Ascii.eqb Bool.eqb];
      destruct (int arg);
      cbn [api_key artist help word_count sample_size];
      rewrite ?orb_false_r, ?orb_true_r;
      repeat split; congruence.
Qed.

(** X11.  When [getopt] accepts the arguments, [parse_cmdline_options]
    returns: the argument of the last [-k]/[--apikey] and of the last
    [-a]/[--artist] pair (absent when there is none); [help] when some
    [-h]/[--help] pair occurs; as word count the integer of the last
    [-w]/[--wordcount] pair whose argument [int] accepts, else 50,
    unclamped; as sample size that of the last such [-s]/[--samplesize]
    pair, else 25, clamped into [[5, 100]]. *)
Theorem parse_cmdline_options_last_wins
    (args : list string) (opts : list (string * string)) :
  getopt args = Parsed opts ->
  exists o,
    parse_cmdline_options int getopt args = Some o
    /\ api_key o = last_arg (is_opt "-k" "--apikey") opts
    /\ artist o = last_arg (is_opt "-a" "--artist") opts
    /\ help o = existsb (is_opt "-h" "--help") opts
    /\ word_count o
       = match last_int int "-w" "--wordcount" opts with
         | Some n => n
         | None => 50%Z
         end
    /\ sample_size o
       = clamp match last_int int "-s" "--samplesize" opts with
               | Some n => n
               | None => 25%Z
               end
    /\ (5 <= sample_size o <= 100)%Z.
Proof.
  intros Hg. unfold parse_cmdline_options. rewrite Hg.
  destruct (fold_set_option opts) as (Ik & Ia & Ih & Iw & Is).
  eexists. split; [reflexivity|]. cbn [api_key artist help word_count sample_size].
  rewrite <- Is. repeat split; try assumption; unfold clamp; lia.
Qed.

Lemma parse_sample_size_bounds (args : list string) (o : Options) :
  parse_cmdline_options int getopt args = Some o ->
  (5 <= sample_size o <= 100)%Z.
Proof.
  unfold parse_cmdline_options. destruct (getopt args); [discriminate|].
  intros [= <-]. cbn [sample_size]. unfold clamp. lia.
Qed.

Lemma print_usage_iff (argv : list string) :
  print_usage_and_exit argv = Usage <-> argv <> [].
Proof.
  destruct argv; cbn [print_usage_and_exit]; split;
    try discriminate; try reflexivity; congruence.
Qed.

(** X12.  [main] ends by printing the usage exactly when [sys.argv] is
    not empty and has one element only, or [getopt] rejects the
    arguments, or the options ask for help or lack the API key or the
    artist; what the network would return plays no part.  On an empty
    [sys.argv] no usage is printed: under the same conditions
    [print_usage_and_exit] fails with [IndexError]. *)
Theorem main_usage_iff (argv : list string) (r : Rng) :
  (main int getopt retrieve argv r = Usage
   <-> argv <> []
       /\ (List.length argv = 1
           \/ parse_cmdline_options int getopt (tl argv) = None
           \/ exists o, parse_cmdline_options int getopt (tl argv) = Some o
                        /\ (help o = true \/ api_key o = None
                            \/ artist o = None)))
  /\ (argv = [] ->
      (parse_cmdline_options int getopt [] = None
       \/ exists o, parse_cmdline_options int getopt [] = Some o
                    /\ (help o = true \/ api_key o = None
                        \/ artist o = None)) ->
      main int getopt retrieve argv r = Crashed IndexError).
Proof.
  assert (Hiff :
    main int getopt retrieve argv r = Usage
    <-> argv <> []
        /\ (List.length argv = 1
            \/ parse_cmdline_options int getopt (tl argv) = None
            \/ exists o, parse_cmdline_options int getopt (tl argv) = Some o
                         /\ (help o = true \/ api_key o = None
                             \/ artist o = None))).
  { unfold main. destruct (Nat.eqb_spec (List.length argv) 1) as [E|E].
    - rewrite print_usage_iff. split; [intros H; split; [exact H|left; exact E]|].
      intros [H _]. exact H.
    - destruct (parse_cmdline_options int getopt (tl argv)) as [o|].
      + destruct (help o) eqn:Eh.
        * rewrite print_usage_iff. split; [|intros [H _]; exact H].
          intros H. split; [exact H|]. right. right. exists o. auto.
        * destruct (api_key o) as [k|] eqn:Ek.
          -- destruct (artist o) as [a|] eqn:Ea.
             ++ split.
                ** intros H. exfalso.
                   destruct (retrieve k a (sample_size o)); try discriminate.
                   destruct (generate_song _ _ _) as [[? ?]|?]; discriminate.
                ** intros [_ [H|[H|(o' & [= <-] & [H|[H|H]])]]];
                     try contradiction; congruence.
             ++ rewrite print_usage_iff. split; [|intros [H _]; exact H].
                intros H. split; [exact H|]. right. right. exists o. auto.
          -- rewrite print_usage_iff. split; [|intros [H _]; exact H].
             intros H. split; [exact H|]. right. right. exists o. auto.
      + rewrite print_usage_iff. split; [|intros [H _]; exact H].
        intros H. split; [exact H|]. right. left. reflexivity. }
  split; [exact Hiff|].
  intros -> H. unfold main. cbn [List.length Nat.eqb tl].
  destruct H as [->|(o & -> & H)]; [reflexivity|].
  destruct (help o); [reflexivity|].
  destruct H as [H|[H|H]]; [discriminate| |].
  - rewrite H. reflexivity.
  - rewrite H. destruct (api_key o); reflexivity.
Qed.

(** X13.  [main] asks the network layer only for sample sizes between 5
    and 100: two network layers that agree on those sizes give the same
    run. *)
Theorem main_queries_clamped
    (retrieve' : string -> string -> Z -> retrieval)
    (argv : list string) (r : Rng) :
  (forall k a n, (5 <= n <= 100)%Z -> retrieve k a n = retrieve' k a n) ->
  main int getopt retrieve argv r = main int getopt retrieve' argv r.
Proof.
  intros Hagree. unfold main.
  destruct (List.length argv =? 1)%nat; [reflexivity|].
  destruct (parse_cmdline_options int getopt (tl argv)) as [o|] eqn:Ep;
    [|reflexivity].
  destruct (help o); [reflexivity|].
  destruct (api_key o) as [k|]; [|reflexivity].
  destruct (artist o) as [a|]; [|reflexivity].
  rewrite (Hagree k a _ (parse_sample_size_bounds _ _ Ep)). reflexivity.
Qed.

(** X14.  A run with key and artist, no help, and lyric bodies retrieved:
    with a word count of at most 1 [main] dies of an uncaught
    [TypeError]; with a larger count it dies of an uncaught [IndexError]
    when every encoded body has fewer than 3 tokens, and prints a song
    otherwise. *)
Theorem main_after_retrieval
    (argv : list string) (r : Rng) (o : Options) (k a : string)
    (bodies : list string) :
  List.length argv <> 1 ->
  parse_cmdline_options int getopt (tl argv) = Some o ->
  help o = false -> api_key o = Some k -> artist o = Some a ->
  retrieve k a (sample_size o) = Retrieved bodies ->
  ((word_count o <= 1)%Z ->
   main int getopt retrieve argv r = Crashed TypeError)
  /\ ((2 <= word_count o)%Z ->
      Forall (fun s => List.length (tokens s) < 3) (encode_corpus bodies) ->
      main int getopt retrieve argv r = Crashed IndexError)
  /\ ((2 <= word_count o)%Z ->
      Exists (fun s => 3 <= List.length (tokens s)) (encode_corpus bodies) ->
      exists song, main int getopt retrieve argv r = SongPrinted song).
Proof.
  intros Hlen Hp Hh Hk Ha Hr.
  assert (E : main int getopt retrieve argv r
              = match generate_song (encode_corpus bodies) (word_count o) r with
                | Ok (song, _) => SongPrinted song
                | Err e => Crashed e
                end).
  { unfold main. destruct (Nat.eqb_spec (List.length argv) 1); [contradiction|].
    rewrite Hp, Hh, Hk, Ha, Hr. reflexivity. }
  rewrite E. split; [|split].
  - intros Hwc. rewrite generate_song_no_loop; [reflexivity|].
    unfold iterations. lia.
  - intros Hwc Hall. rewrite (generate_song_all_short _ _ _ Hwc Hall). reflexivity.
  - intros Hwc Hex.
    destruct (generate_song_some_long _ _ r Hwc Hex) as (text & r' & ->).
    exists text. reflexivity.
Qed.

End WithExternals.

Lemma parse_cmdline_options_last_wins_witness :
  exists o,
    parse_cmdline_options two_numerals fixed_getopt [] = Some o
    /\ api_key o = Some "KEY" /\ artist o = Some "ARTIST" /\ help o = false
    /\ word_count o = 1%Z /\ sample_size o = 100%Z
    /\ (5 <= sample_size o <= 100)%Z.
Proof.
  exact (parse_cmdline_options_last_wins two_numerals fixed_getopt [] _ eq_refl).
Defined.

Lemma main_usage_iff_witness :
  main two_numerals no_options one_body [] first_choice = Crashed IndexError.
Proof.
  refine (proj2 (main_usage_iff two_numerals no_options one_body []
                   first_choice) eq_refl _).
  right. eexists. split; [reflexivity|]. right. left. reflexivity.
Defined.

Lemma main_queries_clamped_witness :
  main two_numerals fixed_getopt one_body ["parrot.py"; "-k"] first_choice
  = main two_numerals fixed_getopt one_body_in_range ["parrot.py"; "-k"]
      first_choice.
Proof.
  apply main_queries_clamped. intros k a n H. unfold one_body, one_body_in_range.
  destruct (Z.leb_spec 5 n); [|lia]. destruct (Z.leb_spec n 100); [|lia].
  reflexivity.
Defined.

Lemma main_after_retrieval_witness :
  main two_numerals fixed_getopt one_body ["parrot.py"; "-k"] first_choice
  = Crashed TypeError.
Proof.
  refine (proj1 (main_after_retrieval two_numerals fixed_getopt one_body
                   ["parrot.py"; "-k"] first_choice
                   (mkOptions (Some "KEY") (Some "ARTIST") 100 1 false)
                   "KEY" "ARTIST" ["a b c"] _ _ _ _ _ _) _);
    first [reflexivity | discriminate | lia].
Defined.

End CliProps.

(** ** From lyric bodies to the printed song *)

Module PipelineProps.
Import PyStr Lyrics Dist Walk Corpus PyStrFacts EncodingProps WalkProps.

Lemma append_assoc (x y z : string) :
  ((x ++ y) ++ z)%string = (x ++ (y ++ z))%string.
Proof. induction x as [|c x IH]; simpl; [|rewrite IH]; reflexivity. Qed.

(** A token with a line break only at its end is free of line breaks, or
    a break-free token followed by one line break. *)
Lemma break_only_last_cases (w : string) :
  break_only_last w = true ->
  (mem_char nl w = false /\ ends_break w = false)
  \/ (exists w', w = (w' ++ NL)%string /\ mem_char nl w' = false
                 /\ ends_break w = true).
Proof.
  induction w as [|c w IH]; intros H; [left; split; reflexivity|].
  cbn [break_only_last] in H. destruct (Ascii.eqb c nl) eqn:Ec.
  - apply Ascii.eqb_eq in Ec. subst c.
    destruct w; [|discriminate]. right. exists EmptyString.
    repeat split.
  - destruct (IH H) as [[Hm He]|(w' & -> & Hm & He)].
    + left. split; [cbn [mem_char]; rewrite Ec, Hm; reflexivity|].
      cbn [ends_break]. destruct w; [exact Ec|exact He].
    + right. exists (String c w'). split; [reflexivity|].
      split; [cbn [mem_char]; rewrite Ec, Hm; reflexivity|].
      cbn [ends_break]. destruct w'; exact He.
Qed.

Lemma replace_nlsp_space (rest : string) :
  replace NL_SP NL (String sp rest) = String sp (replace NL_SP NL rest).
Proof. reflexivity. Qed.

Lemma replace_nlsp_token (w : string) :
  break_only_last w = true -> replace NL_SP NL w = w.
Proof.
  intros H. destruct (break_only_last_cases w H) as [[Hm _]|(w' & -> & Hm & _)].
  - rewrite <- (append_empty_r w) at 1.
    rewrite (replace_nlsp_clean_app w EmptyString Hm). apply append_empty_r.
  - rewrite (replace_nlsp_clean_app w' NL Hm). reflexivity.
Qed.

Lemma decode_layout (ws : list string) :
  Forall (fun w => break_only_last w = true) ws ->
  Decode ws = layout ws.
Proof.
  unfold Decode. induction ws as [|w rest IH]; intros H; [reflexivity|].
  inversion H as [|? ? Hw Hrest]; subst. specialize (IH Hrest).
  destruct rest as [|y rest'].
  - cbn [join layout]. apply replace_nlsp_token, Hw.
  - change (join " " (w :: y :: rest'))
      with ((w ++ String sp (join " " (y :: rest')))%string).
    change (layout (w :: y :: rest'))
      with (if ends_break w then (w ++ layout (y :: rest'))%string
            else (w ++ " " ++ layout (y :: rest'))%string).
    destruct (break_only_last_cases w Hw) as [[Hm He]|(w' & -> & Hm & He)];
      rewrite He.
    + rewrite (replace_nlsp_clean_app _ _ Hm), replace_nlsp_space, IH.
      reflexivity.
    + rewrite append_assoc.
      change ((NL ++ String sp (join " " (y :: rest')))%string)
        with ((NL_SP ++ join " " (y :: rest'))%string).
      rewrite (replace_nlsp_clean_app _ _ Hm), replace_nlsp_sep, IH.
      rewrite append_assoc. reflexivity.
Qed.

(** X15.  On tokens that carry a line break only as their last character,
    the decoder lays the tokens out with one space between neighbours,
    except that nothing is put after a token ending with a line break:
    the next token starts the next line. *)
Theorem decode_is_layout (ws : list string) :
  Forall (fun w => break_only_last w = true) ws ->
  Decode ws = layout ws.
Proof. apply decode_layout. Qed.

Lemma decode_is_layout_witness :
  Decode ["a"; String "b" NL; "c"; "d"]
  = ("a b" ++ NL ++ "c d")%string.
Proof.
  apply (decode_is_layout ["a"; String "b" NL; "c"; "d"]).
  repeat constructor.
Defined.

(** X16.  When the corpus is made of encoded lyric bodies and
    [generate_song] returns a text for a count of at least 2, the text is
    the layout of tokens taken from the token sequences of the bodies:
    spaces separate the tokens of a line and each line break of the text
    is the end of a token that ended a line of some body. *)
Theorem generated_song_layout
    (bodies : list string) (word_count : Z) (r r' : Rng) (text : string) :
  (2 <= word_count)%Z ->
  generate_song (encode_corpus bodies) word_count r = Ok (text, r') ->
  exists ws,
    text = layout ws
    /\ Forall (fun w => exists body, In body bodies /\ In w (Tokenize body)) ws.
Proof.
  intros Hwc H.
  destruct (generate_song_tokens _ _ _ _ _ Hwc H) as (ws & Hws & ->).
  assert (Hfrom : Forall (fun w => exists body,
                              In body bodies /\ In w (Tokenize body)) ws).
  { rewrite Forall_forall in *. intros w Hw.
    destruct (Hws w Hw) as (song & Hin & Ht).
    unfold encode_corpus in Hin. apply in_map_iff in Hin as (body & <- & Hb).
    exists body. split; [exact Hb|exact Ht]. }
  exists ws. split; [|exact Hfrom].
  apply decode_layout. rewrite Forall_forall in *. intros w Hw.
  destruct (Hfrom w Hw) as (body & _ & Ht).
  pose proof (tokenize_break_only_last body) as Hs.
  rewrite Forall_forall in Hs. exact (Hs w Ht).
Qed.

Lemma generated_song_layout_witness :
  exists ws,
    ("a b" ++ NL ++ "c d d")%string = layout ws
    /\ Forall (fun w => exists body,
                   In body [two_line_body] /\ In w (Tokenize body)) ws.
Proof.
  refine (generated_song_layout [two_line_body] 4 first_choice first_choice
            _ _ _); [lia|reflexivity].
Defined.

End PipelineProps.
